(** * Podcast audio pipeline: [PodcastAudioGenerator] and [PodcastMixer]

    A shallow embedding of [tools.py].  Both tools are sequential programs
    that talk to three collaborators: the operating system ([os], [open]),
    the text-to-speech client and the audio library.  The collaborators are
    an interface ([Platform]); the two [_run] methods are written in a small
    state-and-exception monad over it, statement by statement.

    Conventions.
    - A Python [str] is the list of its code points, so that comparison,
      [strip] and formatting are the ones of the language.
    - Paths follow [posixpath].
    - [exn] stands for the instances of [Exception], the class both
      [except] clauses name; interpreter exits and interrupts are outside
      the model.
    - Every external call is recorded in [calls], every [print] in [stdout];
      both are ghost fields used to state which effects a run performed. *)

From Stdlib Require Import ZArith NArith List Ascii String Decimal DecimalNat.
From Stdlib Require Import Floats.PrimFloat Lia.
From stdpp Require Import base decidable option list sorting gmap.

Set Warnings "-inexact-float".
Set Default Proof Using "Type".

(** ** Python strings *)

Module Py.

Definition char : Type := N.
Definition str : Type := list char.
Definition bytes : Type := list Byte.byte.

(** An ASCII literal as a [str]. *)
Fixpoint lit (s : string) : str :=
  match s with
  | EmptyString => []
  | String c s' => N_of_ascii c :: lit s'
  end.

(** [str.isspace] on one code point (the table of the Unicode database
    that CPython consults). *)
Definition isspace (c : char) : bool :=
  ((9 <=? c) && (c <=? 13) || (28 <=? c) && (c <=? 32)
   || (c =? 133) || (c =? 160) || (c =? 5760)
   || (8192 <=? c) && (c <=? 8202)
   || (c =? 8232) || (c =? 8233) || (c =? 8239) || (c =? 8287)
   || (c =? 12288))%N.

Fixpoint lstrip (s : str) : str :=
  match s with
  | [] => []
  | c :: s' => if isspace c then lstrip s' else s
  end.

Definition rstrip (s : str) : str := rev (lstrip (rev s)).

(** [s.strip()] *)
Definition strip (s : str) : str := rstrip (lstrip s).

(** [s.startswith(p)] *)
Fixpoint startswith (s p : str) {struct p} : bool :=
  match p, s with
  | [], _ => true
  | _ :: _, [] => false
  | a :: p', b :: s' => (a =? b)%N && startswith s' p'
  end.

(** [s.endswith(p)] *)
Definition endswith (s p : str) : bool := startswith (rev s) (rev p).

(** [a <= b] on strings: lexicographic on code points, a proper prefix
    first. *)
Fixpoint str_leb (a b : str) : bool :=
  match a, b with
  | [], _ => true
  | _ :: _, [] => false
  | x :: a', y :: b' =>
      if (x <? y)%N then true
      else if (x =? y)%N then str_leb a' b' else false
  end.

Definition str_le (a b : str) : Prop := str_leb a b = true.
Definition str_lt (a b : str) : Prop := str_le a b ∧ a ≠ b.

#[global] Instance str_le_dec (a b : str) : Decision (str_le a b) :=
  bool_eq_dec (str_leb a b) true.

(** [sorted(l)] on a list of strings.  The order is total and
    antisymmetric, so every sorting algorithm returns the same list. *)
Definition sorted (l : list str) : list str := merge_sort str_le l.

(** Decimal digits. *)
Fixpoint uint_chars (d : Decimal.uint) : str :=
  match d with
  | Nil => []
  | D0 d => 48%N :: uint_chars d
  | D1 d => 49%N :: uint_chars d
  | D2 d => 50%N :: uint_chars d
  | D3 d => 51%N :: uint_chars d
  | D4 d => 52%N :: uint_chars d
  | D5 d => 53%N :: uint_chars d
  | D6 d => 54%N :: uint_chars d
  | D7 d => 55%N :: uint_chars d
  | D8 d => 56%N :: uint_chars d
  | D9 d => 57%N :: uint_chars d
  end.

(** [str(n)] for a non-negative [int]. *)
Definition str_of_nat (n : nat) : str := uint_chars (Nat.to_uint n).

(** [str(z)] for an [int]. *)
Definition str_of_int (z : Z) : str :=
  match Z.to_int z with
  | Pos d => uint_chars d
  | Neg d => 45%N :: uint_chars d
  end.

(** [f"{n:03d}"] for a non-negative [int]: at least three digits, zeros
    on the left. *)
Definition format_03d (n : nat) : str :=
  let s := str_of_nat n in repeat 48%N (3 - length s) ++ s.

(** [b''.join(chunks)] *)
Definition join_bytes (chunks : list bytes) : bytes := concat chunks.

(** [os.path.isabs] *)
Definition isabs (p : str) : bool := startswith p (lit "/").

(** [os.path.join(a, b)] *)
Definition path_join (a b : str) : str :=
  if startswith b (lit "/") then b
  else if (match a with [] => true | _ => false end) || endswith a (lit "/")
       then a ++ b
       else a ++ lit "/" ++ b.

(** An instance of [Exception]: its class name and its [str(e)]. *)
Record exn := Exn { exn_class : str; exn_msg : str }.

End Py.
Import Py.

(** ** Data model *)

(** [class VoiceConfig(BaseModel)] *)
Record VoiceConfig := {
  stability : float;
  similarity_boost : float;
  style : float;
  use_speaker_boost : bool;
  model_id : str;
  output_format : str;
  apply_text_normalization : str
}.

(** [VoiceConfig()] *)
Definition VoiceConfig_default : VoiceConfig := {|
  stability := 0.45;
  similarity_boost := 0.85;
  style := 0.65;
  use_speaker_boost := true;
  model_id := lit "eleven_multilingual_v2";
  output_format := lit "mp3_44100_128";
  apply_text_normalization := lit "auto"
|}.

(** [class AudioConfig(BaseModel)] *)
Record AudioConfig := {
  format : str;
  sample_rate : Z;
  channels : Z;
  bitrate : str;
  normalize : bool;
  target_loudness : float;
  compression_ratio : float
}.

(** [AudioConfig()] *)
Definition AudioConfig_default : AudioConfig := {|
  format := lit "mp3";
  sample_rate := 48000;
  channels := 2;
  bitrate := lit "256k";
  normalize := true;
  target_loudness := (-14.0)%float;
  compression_ratio := 2.0
|}.

(** One element of the [dialogue] argument.  [_run] is annotated with
    [List[Dialogue]] and reads the elements with [.get]: an element is
    either a [dict] with string values (a key may be absent) or an
    instance of the [Dialogue] model, which has the two attributes and no
    [get] method. *)
Inductive segment :=
| DictSegment (speaker text : option str)
| DialogueSegment (speaker text : str).

(** The value [add_voice] stores under a speaker name:
    [{"voice_id": ..., "config": ...}]. *)
Record voice_entry := { voice_id : str; config : VoiceConfig }.

(** The keyword arguments of [client.text_to_speech.convert]. *)
Record tts_request := {
  tts_text : str;
  tts_voice_id : str;
  tts_model_id : str;
  tts_output_format : str;
  tts_stability : float;
  tts_similarity_boost : float;
  tts_style : float;
  tts_use_speaker_boost : bool
}.

(** The keyword arguments of [AudioSegment.export]. *)
Record export_args := {
  export_format : str;
  export_bitrate : option str;
  export_parameters : list str
}.

(** ** The collaborators *)

(** What the two tools need from the operating system, the speech client
    and the audio library.  [W] is the state of the outside world (file
    system, provider); an operation that can raise returns [inl e].
    [os_getcwd] and [os_path_exists] only read the world. *)
Class Platform := {
  W : Type;
  Audio : Type;
  (* os.makedirs(path, exist_ok=True) *)
  os_makedirs : str → W → W * (exn + unit);
  (* os.getcwd() *)
  os_getcwd : W → exn + str;
  (* os.path.exists(path) *)
  os_path_exists : str → W → bool;
  (* with open(path, "wb") as out: out.write(data) *)
  open_write : str → bytes → W → W * (exn + unit);
  (* the chunks of client.text_to_speech.convert(...), fully iterated *)
  text_to_speech_convert : tts_request → W → W * (exn + list bytes);
  (* AudioSegment.from_file(path) *)
  from_file : str → W → W * (exn + Audio);
  (* seg.export(path, format=, bitrate=, parameters=) *)
  export : Audio → str → export_args → W → W * (exn + unit);
  (* seg.normalize() *)
  effects_normalize : Audio → Audio;
  (* seg + db, for a number *)
  apply_gain : Audio → Z → Audio;
  (* AudioSegment.silent(duration=ms) *)
  silent : Z → Audio;
  (* seg1 + seg2, for two segments *)
  seg_add : Audio → Audio → Audio;
  (* seg1.append(seg2, crossfade=ms); ValueError when the crossfade is
     longer than one of the segments *)
  seg_append : Audio → Audio → Z → exn + Audio
}.

(** An external call, as recorded in the run's [calls]. *)
Inductive call `{Platform} :=
| Call_makedirs (path : str)
| Call_getcwd
| Call_exists (path : str)
| Call_convert (req : tts_request)
| Call_write (path : str) (data : bytes)
| Call_from_file (path : str)
| Call_export (seg : Audio) (path : str) (args : export_args).

Arguments Call_makedirs {_} path.
Arguments Call_getcwd {_}.
Arguments Call_exists {_} path.
Arguments Call_convert {_} req.
Arguments Call_write {_} path data.
Arguments Call_from_file {_} path.
Arguments Call_export {_} seg path args.

(** ** The monad of a run *)

Record state `{Platform} := State {
  world : W;
  calls : list call;
  stdout : list str;
  tracebacks : list exn
}.

Arguments State {_} world calls stdout tracebacks.

Module Run.
Section Monad.
Context `{Platform}.

Definition M (A : Type) : Type := state → state * (exn + A).

Definition ret {A} (a : A) : M A := λ s, (s, inr a).

Definition bind {A B} (m : M A) (k : A → M B) : M B :=
  λ s, match m s with
       | (s', inl e) => (s', inl e)
       | (s', inr a) => k a s'
       end.

(** [raise e] *)
Definition raise {A} (e : exn) : M A := λ s, (s, inl e).

(** [try: m  except Exception as e: h e] *)
Definition try_except {A} (m : M A) (h : exn → M A) : M A :=
  λ s, match m s with
       | (s', inl e) => h e s'
       | r => r
       end.

Definition lift_exn {A} (r : exn + A) : M A := λ s, (s, r).

Definition log (c : call) (s : state) : state :=
  State (world s) (calls s ++ [c]) (stdout s) (tracebacks s).

Definition set_world (w : W) (s : state) : state :=
  State w (calls s) (stdout s) (tracebacks s).

(** An operation that changes the world. *)
Definition effect {A} (c : call) (op : W → W * (exn + A)) : M A :=
  λ s, let s1 := log c s in
       let '(w, r) := op (world s1) in (set_world w s1, r).

(** An operation that reads the world. *)
Definition query {A} (c : call) (op : W → exn + A) : M A :=
  λ s, let s1 := log c s in (s1, op (world s1)).

(** [print(line)] *)
Definition print (line : str) : M unit :=
  λ s, (State (world s) (calls s) (stdout s ++ [line]) (tracebacks s), inr tt).

(** [traceback.print_exc()] while [e] is being handled. *)
Definition print_exc (e : exn) : M unit :=
  λ s, (State (world s) (calls s) (stdout s) (tracebacks s ++ [e]), inr tt).

Definition makedirs (path : str) : M unit :=
  effect (Call_makedirs path) (os_makedirs path).
Definition getcwd : M str := query Call_getcwd os_getcwd.
Definition path_exists (path : str) : M bool :=
  query (Call_exists path) (λ w, inr (os_path_exists path w)).
Definition write_file (path : str) (data : bytes) : M unit :=
  effect (Call_write path data) (open_write path data).
Definition convert (req : tts_request) : M (list bytes) :=
  effect (Call_convert req) (text_to_speech_convert req).
Definition AudioSegment_from_file (path : str) : M Audio :=
  effect (Call_from_file path) (from_file path).
Definition AudioSegment_export (seg : Audio) (path : str) (args : export_args)
  : M unit :=
  effect (Call_export seg path args) (export seg path args).

End Monad.
End Run.
Import Run.

Notation "x <- m ;; k" := (bind m (λ x, k))
  (at level 100, m at next level, right associativity, only parsing).
Notation "m ;;; k" := (bind m (λ _, k))
  (at level 100, right associativity, only parsing).

(** ** [class PodcastAudioGenerator(BaseTool)] *)

Module PodcastAudioGenerator.

(** The fields [_run] reads.  [client] is the platform's
    [text_to_speech_convert]. *)
Record t := {
  voice_configs : gmap str voice_entry;
  audio_config : AudioConfig;
  output_dir : str
}.

(** The field defaults. *)
Definition default : t := {|
  voice_configs := ∅;
  audio_config := AudioConfig_default;
  output_dir := lit "output/audio-files"
|}.

(** [add_voice(name, voice_id, config=None)] *)
Definition add_voice (self : t) (name : str) (vid : str)
    (cfg : option VoiceConfig) : t := {|
  voice_configs :=
    <[name := {| voice_id := vid;
                 config := match cfg with
                           | Some c => c
                           | None => VoiceConfig_default
                           end |}]> (voice_configs self);
  audio_config := audio_config self;
  output_dir := output_dir self
|}.

(** [f"{self.output_dir}/{index:03d}_{speaker}.{self.audio_config.format}"] *)
Definition filename_of (self : t) (index : nat) (speaker : str) : str :=
  output_dir self ++ lit "/" ++ format_03d index ++ lit "_" ++ speaker
  ++ lit "." ++ format (audio_config self).

Definition request_of (text : str) (voice_config : voice_entry) : tts_request := {|
  tts_text := text;
  tts_voice_id := voice_id voice_config;
  tts_model_id := model_id (config voice_config);
  tts_output_format := output_format (config voice_config);
  tts_stability := stability (config voice_config);
  tts_similarity_boost := similarity_boost (config voice_config);
  tts_style := style (config voice_config);
  tts_use_speaker_boost := use_speaker_boost (config voice_config)
|}.

Definition normalize_args (self : t) : export_args := {|
  export_format := format (audio_config self);
  export_bitrate := Some (bitrate (audio_config self));
  export_parameters := [lit "-ar"; str_of_int (sample_rate (audio_config self))]
|}.

Definition attribute_error : exn :=
  Exn (lit "AttributeError") (lit "'Dialogue' object has no attribute 'get'").

Section Run.
Context `{Platform}.

(** [segment.get('speaker', '')] *)
Definition get_speaker (seg : segment) : M str :=
  match seg with
  | DictSegment sp _ => ret (match sp with Some v => v | None => [] end)
  | DialogueSegment _ _ => raise attribute_error
  end.

(** [segment.get('text', '')] *)
Definition get_text (seg : segment) : M str :=
  match seg with
  | DictSegment _ tx => ret (match tx with Some v => v | None => [] end)
  | DialogueSegment _ _ => raise attribute_error
  end.

(** The normalization pass: lines 108 to 119. *)
Definition normalize_pass (self : t) (filename : str) : M unit :=
  audio <- AudioSegment_from_file filename ;;
  let normalized := effects_normalize audio in
  let normalized := apply_gain normalized 4 in
  AudioSegment_export normalized filename (normalize_args self).

(** The body of the [try]: lines 86 to 122. *)
Definition try_body (self : t) (index : nat) (speaker text : str)
    (voice_config : voice_entry) (audio_files : list str) : M (list str) :=
  audio_generator <- convert (request_of text voice_config) ;;
  let audio_bytes := join_bytes audio_generator in
  let filename := filename_of self index speaker in
  write_file filename audio_bytes ;;;
  (if normalize (audio_config self)
   then normalize_pass self filename
   else ret tt) ;;;
  let audio_files := audio_files ++ [filename] in
  print (lit "Audio content written to file " ++ [34%N] ++ filename ++ [34%N]) ;;;
  ret audio_files.

(** One iteration of the [for]: lines 73 to 126.  The result is the list
    [audio_files] as the iteration leaves it. *)
Definition loop_body (self : t) (index : nat) (seg : segment)
    (audio_files : list str) : M (list str) :=
  speaker <- get_speaker seg ;;
  let speaker := strip speaker in
  text <- get_text seg ;;
  let text := strip text in
  if bool_decide (speaker = []) || bool_decide (text = []) then
    print (lit "Skipping segment " ++ str_of_nat index
           ++ lit ": missing speaker or text") ;;;
    ret audio_files
  else
    match voice_configs self !! speaker with
    | None =>
        print (lit "Skipping unknown speaker: " ++ speaker) ;;;
        ret audio_files
    | Some voice_config =>
        try_except (try_body self index speaker text voice_config audio_files)
          (λ e, print (lit "Error processing segment " ++ str_of_nat index
                       ++ lit ": " ++ exn_msg e) ;;;
                ret audio_files)
    end.

(** [for index, segment in enumerate(dialogue)], from [index] on. *)
Fixpoint for_each (self : t) (index : nat) (dialogue : list segment)
    (audio_files : list str) : M (list str) :=
  match dialogue with
  | [] => ret audio_files
  | seg :: rest =>
      audio_files <- loop_body self index seg audio_files ;;
      for_each self (S index) rest audio_files
  end.

(** [def _run(self, dialogue)] *)
Definition _run (self : t) (dialogue : list segment) : M (list str) :=
  makedirs (output_dir self) ;;;
  audio_files <- for_each self 0 dialogue [] ;;
  ret (sorted audio_files).

End Run.
End PodcastAudioGenerator.

(** ** [class PodcastMixer(BaseTool)] *)

Module PodcastMixer.

Record t := {
  audio_config : AudioConfig;
  output_dir : str
}.

Definition default : t := {|
  audio_config := AudioConfig_default;
  output_dir := lit "output/podcast"
|}.

(** The default of the [crossfade] parameter. *)
Definition crossfade_default : Z := 50.

Definition final_args : export_args := {|
  export_format := lit "mp3";
  export_bitrate := None;
  export_parameters := [lit "-q:a"; lit "0"; lit "-ar"; lit "48000"]
|}.

Definition index_error : exn :=
  Exn (lit "IndexError") (lit "list index out of range").

(** How a block that contains a [return] ends. *)
Inductive flow (A : Type) :=
| Return (v : str)
| Fallthrough (a : A).
Arguments Return {A} v.
Arguments Fallthrough {A} a.

Section Run.
Context `{Platform}.

(** [af if os.path.isabs(af) else os.path.join(os.getcwd(), af)] *)
Definition resolve (af : str) : M str :=
  if isabs af then ret af
  else cwd <- getcwd ;; ret (path_join cwd af).

(** The validation loop: lines 155 to 161. *)
Fixpoint validate (audio_files validated_audio_files : list str)
  : M (flow (list str)) :=
  match audio_files with
  | [] => ret (Fallthrough validated_audio_files)
  | af :: rest =>
      segment_path <- resolve af ;;
      found <- path_exists segment_path ;;
      if negb found then
        print (lit "ERROR: Segment file does not exist at path: "
               ++ segment_path ++ lit ". (Original received: " ++ af
               ++ lit ")") ;;;
        ret (Return [])
      else validate rest (validated_audio_files ++ [segment_path])
  end.

(** The merge loop: lines 167 to 173, [i] counting from [i0]. *)
Fixpoint merge (crossfade : Z) (i : nat) (files : list str) (mixed : Audio)
  : M Audio :=
  match files with
  | [] => ret mixed
  | audio_file :: rest =>
      next_segment <- AudioSegment_from_file audio_file ;;
      let silence := silent 200 in
      let next_segment := seg_add silence next_segment in
      mixed <- lift_exn (seg_append mixed next_segment crossfade) ;;
      print (lit "DEBUG: Appended segment " ++ str_of_nat (i + 2) ++ lit ": "
             ++ audio_file) ;;;
      merge crossfade (S i) rest mixed
  end.

(** The body of the [try]: lines 150 to 190. *)
Definition try_body (self : t) (audio_files : list str) (crossfade : Z)
  : M str :=
  makedirs (output_dir self) ;;;
  print (lit "DEBUG: Output directory confirmed: " ++ output_dir self) ;;;
  checked <- validate audio_files [] ;;
  match checked with
  | Return v => ret v
  | Fallthrough validated_audio_files =>
      first <- match validated_audio_files with
               | [] => raise index_error
               | f :: _ => ret f
               end ;;
      mixed <- AudioSegment_from_file first ;;
      print (lit "DEBUG: Initial segment loaded: " ++ first) ;;;
      mixed <- merge crossfade 0 (tail validated_audio_files) mixed ;;
      let output_file := path_join (output_dir self) (lit "podcast_final.mp3") in
      print (lit "DEBUG: Attempting to export to: " ++ output_file) ;;;
      AudioSegment_export mixed output_file final_args ;;;
      print (lit "DEBUG: Export completed successfully.") ;;;
      print (lit "Successfully mixed podcast to: " ++ output_file) ;;;
      ret output_file
  end.

(** [def _run(self, audio_files, crossfade=50)] *)
Definition _run (self : t) (audio_files : list str) (crossfade : Z) : M str :=
  match audio_files with
  | [] =>
      print (lit "DEBUG: No audio files provided to mix.") ;;;
      ret []
  | _ :: _ =>
      try_except (try_body self audio_files crossfade)
        (λ e, print (lit "CRITICAL ERROR IN PODCASTMIXER: " ++ exn_msg e) ;;;
              print_exc e ;;;
              ret [])
  end.

End Run.
End PodcastMixer.

(** ** A platform to run the tools on

    A small file system keyed by absolute path, a provider that refuses a
    given set of texts, and audio as one sample per millisecond. *)

Module Sim.

Record world := World {
  cwd : str;
  dirs : list str;
  files : list (str * bytes);
  refused : list str
}.

Definition audio : Type := list Z.

Definition abspath (w : world) (p : str) : str :=
  if isabs p then p else path_join (cwd w) p.

Fixpoint lookup_file (p : str) (fs : list (str * bytes)) : option bytes :=
  match fs with
  | [] => None
  | (q, data) :: fs' => if bool_decide (p = q) then Some data else lookup_file p fs'
  end.

Definition store (p : str) (data : bytes) (w : world) : world :=
  World (cwd w) (dirs w) ((p, data) :: files w) (refused w).

Definition byte_of_N (n : N) : Byte.byte :=
  match Byte.of_N (n mod 256)%N with Some b => b | None => Byte.x00 end.

Definition encode (s : str) : bytes := map byte_of_N s.
Definition samples (data : bytes) : audio := map (λ b, Z.of_N (Byte.to_N b)) data.
Definition unsamples (a : audio) : bytes := map (λ z, byte_of_N (Z.to_N (z mod 256)%Z)) a.

Definition sim_makedirs (p : str) (w : world) : world * (exn + unit) :=
  match lookup_file (abspath w p) (files w) with
  | Some _ => (w, inl (Exn (lit "FileExistsError") (abspath w p)))
  | None => (World (cwd w) (abspath w p :: dirs w) (files w) (refused w), inr tt)
  end.

Definition sim_exists (p : str) (w : world) : bool :=
  bool_decide (abspath w p ∈ dirs w)
  || match lookup_file (abspath w p) (files w) with Some _ => true | None => false end.

Definition sim_write (p : str) (data : bytes) (w : world) : world * (exn + unit) :=
  if bool_decide (abspath w p ∈ dirs w)
  then (w, inl (Exn (lit "IsADirectoryError") (abspath w p)))
  else (store (abspath w p) data w, inr tt).

Definition sim_convert (req : tts_request) (w : world) : world * (exn + list bytes) :=
  if bool_decide (tts_text req ∈ refused w)
  then (w, inl (Exn (lit "ApiError") (lit "status_code: 500")))
  else (w, inr [encode (tts_voice_id req); encode (tts_text req)]).

Definition sim_from_file (p : str) (w : world) : world * (exn + audio) :=
  match lookup_file (abspath w p) (files w) with
  | None => (w, inl (Exn (lit "FileNotFoundError") (abspath w p)))
  | Some [] => (w, inl (Exn (lit "CouldntDecodeError") (abspath w p)))
  | Some data => (w, inr (samples data))
  end.

Definition sim_export (a : audio) (p : str) (args : export_args) (w : world)
  : world * (exn + unit) :=
  sim_write p (unsamples a) w.

Definition peak (a : audio) : Z := fold_right Z.max 0%Z a.

Definition sim_normalize (a : audio) : audio :=
  if (peak a =? 0)%Z then a else map (λ z, z + (255 - peak a))%Z a.

Definition sim_gain (a : audio) (db : Z) : audio := map (λ z, z + db)%Z a.

Definition sim_silent (ms : Z) : audio := repeat 0%Z (Z.to_nat ms).

Fixpoint blend (a b : audio) : audio :=
  match a, b with
  | x :: a', y :: b' => ((x + y) / 2)%Z :: blend a' b'
  | _, _ => []
  end.

Definition sim_append (a b : audio) (crossfade : Z) : exn + audio :=
  let n := Z.to_nat crossfade in
  if (crossfade =? 0)%Z then inr (a ++ b)
  else if (Z.of_nat (length a) <? crossfade)%Z then
    inl (Exn (lit "ValueError")
             (lit "Crossfade is longer than the original AudioSegment"))
  else if (Z.of_nat (length b) <? crossfade)%Z then
    inl (Exn (lit "ValueError")
             (lit "Crossfade is longer than the appended AudioSegment"))
  else inr (firstn (length a - n) a ++ blend (skipn (length a - n) a) (firstn n b)
            ++ skipn n b).

#[global] Instance platform : Platform := {|
  W := world;
  Audio := audio;
  os_makedirs := sim_makedirs;
  os_getcwd := λ w, inr (cwd w);
  os_path_exists := sim_exists;
  open_write := sim_write;
  text_to_speech_convert := sim_convert;
  from_file := sim_from_file;
  export := sim_export;
  effects_normalize := sim_normalize;
  apply_gain := sim_gain;
  silent := sim_silent;
  seg_add := λ a b, a ++ b;
  seg_append := sim_append
|}.

Definition start (w : world) : state := State (w : W) [] [] [].

(** An empty working directory [/work]. *)
Definition empty_world : world := World (lit "/work") [] [] [].

(** A generator that writes to [out] and knows the speakers [A] and [B]. *)
Definition generator : PodcastAudioGenerator.t :=
  PodcastAudioGenerator.add_voice
    (PodcastAudioGenerator.add_voice
       {| PodcastAudioGenerator.voice_configs := ∅;
          PodcastAudioGenerator.audio_config := AudioConfig_default;
          PodcastAudioGenerator.output_dir := lit "out" |}
       (lit "A") (lit "voice-a") None)
    (lit "B") (lit "voice-b") None.

Definition line (speaker text : string) : segment :=
  DictSegment (Some (lit speaker)) (Some (lit text)).

(** The scenario of the specification: three lines, the provider refuses
    the second. *)
Definition scenario : list segment :=
  [line "A" "Hi"; line "B" "Hello"; line "A" "Bye"].

Definition scenario_world : world := World (lit "/work") [] [] [lit "Hello"].

(** A script of 1001 lines of which only lines 100 and 1000 are spoken. *)
Definition blank : segment := DictSegment None None.

Definition long_script : list segment :=
  repeat blank 100 ++ [line "A" "Hi"] ++ repeat blank 899 ++ [line "A" "Bye"].

(** A world that holds the two files of the scenario. *)
Definition mix_world : world :=
  World (lit "/work") [lit "/work/out"]
    [(lit "/work/out/000_A.mp3", [Byte.x10; Byte.x20; Byte.x30]);
     (lit "/work/out/002_A.mp3", [Byte.x40; Byte.x50; Byte.x60])] [].

(** The two files mixed with a crossfade of 2 ms: the second one comes
    after 200 ms of silence, the first 2 ms of which are blended with the
    tail of the first file. *)
Definition scenario_track : audio :=
  [16; 16; 24]%Z ++ repeat 0%Z 198 ++ [64; 80; 96]%Z.

Definition voice_a : voice_entry :=
  {| voice_id := lit "voice-a"; config := VoiceConfig_default |}.

(** A world whose only file cannot be decoded. *)
Definition corrupt_world : world :=
  World (lit "/work") [lit "/work/out"] [(lit "/work/out/000_A.mp3", [])] [].

(** The same platform with switchable faults: a working directory that
    is gone, a decoder that is not installed, a disk that is full. *)
Definition faulty (cwd_ok decode_ok export_ok : bool) : Platform := {|
  W := world;
  Audio := audio;
  os_makedirs := sim_makedirs;
  os_getcwd := λ w,
    if cwd_ok then inr (cwd w)
    else inl (Exn (lit "FileNotFoundError") (lit "No such file or directory"));
  os_path_exists := sim_exists;
  open_write := sim_write;
  text_to_speech_convert := sim_convert;
  from_file := λ p w,
    if decode_ok then sim_from_file p w
    else (w, inl (Exn (lit "CouldntDecodeError") p));
  export := λ a p args w,
    if export_ok then sim_export a p args w
    else (w, inl (Exn (lit "OSError") (lit "No space left on device")));
  effects_normalize := sim_normalize;
  apply_gain := sim_gain;
  silent := sim_silent;
  seg_add := λ a b, a ++ b;
  seg_append := sim_append
|}.

(** A fresh run on any platform. *)
Definition fresh `{Platform} (w : W) : state := State w [] [] [].

(** A world in which both output directories are taken by files. *)
Definition blocked_world : world :=
  World (lit "/work") []
    [(lit "/work/out", [Byte.x00]); (lit "/work/output/podcast", [Byte.x00])] [].

End Sim.

(** ** Vocabulary of the properties *)

(** Kinds of external call. *)
Definition is_query `{Platform} (c : call) : bool :=
  match c with Call_getcwd | Call_exists _ => true | _ => false end.

Definition is_from_file `{Platform} (c : call) : bool :=
  match c with Call_from_file _ => true | _ => false end.

Definition is_export `{Platform} (c : call) : bool :=
  match c with Call_export _ _ _ => true | _ => false end.

Definition is_dict (seg : segment) : bool :=
  match seg with DictSegment _ _ => true | DialogueSegment _ _ => false end.

(** The speaker and the text of a [dict] line after [strip]. *)
Definition stripped (field : option str) : str :=
  strip (match field with Some v => v | None => [] end).

(** A line that the two guards of the loop skip: speaker or text empty
    after [strip], or no voice registered for the speaker. *)
Definition skipped (self : PodcastAudioGenerator.t) (seg : segment) : Prop :=
  match seg with
  | DictSegment sp tx =>
      stripped sp = [] ∨ stripped tx = []
      ∨ PodcastAudioGenerator.voice_configs self !! stripped sp = None
  | DialogueSegment _ _ => False
  end.

(** The ordinal prefix of a path [dir/<digits>...]: the number its file
    name starts with. *)
Definition is_digit (c : char) : bool := ((48 <=? c) && (c <=? 57))%N.

Fixpoint leading_digits (s : str) : str :=
  match s with
  | c :: s' => if is_digit c then c :: leading_digits s' else []
  | [] => []
  end.

Definition number_of (digits : str) : nat :=
  fold_left (λ acc c, 10 * acc + N.to_nat (c - 48)) digits 0.

Definition ordinal_prefix (dir path : str) : option nat :=
  if startswith path (dir ++ lit "/") then
    match leading_digits (drop (length dir + 1) path) with
    | [] => None
    | ds => Some (number_of ds)
    end
  else None.

(** [path] is the file of line [i] of [dialogue]: the line is a [dict]
    whose stripped speaker names the file, and [i] is the ordinal prefix. *)
Definition file_of_line (self : PodcastAudioGenerator.t)
    (dialogue : list segment) (i : nat) (path : str) : Prop :=
  ∃ sp tx, dialogue !! i = Some (DictSegment sp tx)
    ∧ path = PodcastAudioGenerator.filename_of self i (stripped sp)
    ∧ ordinal_prefix (PodcastAudioGenerator.output_dir self) path = Some i.

(** The result guarantee of the synthesizer: the list is ascending, and
    its paths are the files of lines of strictly increasing index. *)
Definition in_script_order (self : PodcastAudioGenerator.t)
    (dialogue : list segment) (paths : list str) : Prop :=
  Sorted str_le paths
  ∧ ∃ idxs : list nat,
      StronglySorted lt idxs ∧ Forall2 (file_of_line self dialogue) idxs paths.

(** [os.path.join(self.output_dir, "podcast_final.mp3")] *)
Definition final_path (self : PodcastMixer.t) : str :=
  path_join (PodcastMixer.output_dir self) (lit "podcast_final.mp3").

(** The path the validation loop checks for [af] in the world [w]. *)
Definition resolved_path `{Platform} (w : W) (af : str) : exn + str :=
  if isabs af then inr af
  else match os_getcwd w with
       | inl e => inl e
       | inr cwd => inr (path_join cwd af)
       end.

(** [af] is present when the validation loop looks for it. *)
Definition present `{Platform} (w : W) (af path : str) : Prop :=
  resolved_path w af = inr path ∧ os_path_exists path w = true.

(** [af] is missing when the validation loop looks for it. *)
Definition missing `{Platform} (w : W) (af : str) : Prop :=
  ∃ path, resolved_path w af = inr path ∧ os_path_exists path w = false.

(** Decoding the files one after the other. *)
Fixpoint decode_all `{Platform} (paths : list str) (w : W)
  : W * (exn + list Audio) :=
  match paths with
  | [] => (w, inr [])
  | p :: ps =>
      match from_file p w with
      | (w1, inl e) => (w1, inl e)
      | (w1, inr a) =>
          match decode_all ps w1 with
          | (w2, inl e) => (w2, inl e)
          | (w2, inr l) => (w2, inr (a :: l))
          end
      end
  end.

(** The track of the specification: starting from the first segment,
    each further segment gets 200 ms of silence in front and is appended
    with the crossfade. *)
Fixpoint crossfade_chain `{Platform} (crossfade : Z) (acc : Audio)
    (segs : list Audio) : exn + Audio :=
  match segs with
  | [] => inr acc
  | seg :: rest =>
      match seg_append acc (seg_add (silent 200) seg) crossfade with
      | inl e => inl e
      | inr acc' => crossfade_chain crossfade acc' rest
      end
  end.

(** Two states that differ in their diagnostics only. *)
Definition same_effects `{Platform} (s1 s2 : state) : Prop :=
  world s1 = world s2 ∧ calls s1 = calls s2.

(** A computation whose result and effects do not depend on what was
    printed before. *)
Definition oblivious `{Platform} {A} (m : M A) : Prop :=
  ∀ s1 s2, same_effects s1 s2 →
    snd (m s1) = snd (m s2) ∧ same_effects (fst (m s1)) (fst (m s2)).

(** What the [except] clause of the generator's loop does with [e]. *)
Definition handled `{Platform} (index : nat) (audio_files : list str)
    (e : exn) (s1 : state) : state * (exn + list str) :=
  (State (world s1) (calls s1)
     (stdout s1 ++ [lit "Error processing segment " ++ str_of_nat index
                    ++ lit ": " ++ exn_msg e])
     (tracebacks s1), inr audio_files).

(** The state in which the generator's loop starts, when [makedirs]
    left the world [w1]. *)
Definition after_makedirs `{Platform} (dir : str) (w1 : W) (s : state) : state :=
  State w1 (calls s ++ [Call_makedirs dir]) (stdout s) (tracebacks s).

(** What one line of the script does, as the design describes it, on the
    world alone (no diagnostics, no exceptions): a line with an empty
    speaker or text, or without a registered voice, does nothing; every
    other line is synthesized, written to its file and, when [normalize]
    is set, decoded again, normalized, boosted by 4 dB and exported over
    the same file.  The first step that fails ends the line.  The result
    is the world the line leaves, the external calls it made, and its
    index and file when every step succeeded.  An element that is not a
    [dict] is outside the description: the run raises for it, and the
    properties that use [line_effect] are about scripts of [dict]s. *)
Definition line_effect `{Platform} (self : PodcastAudioGenerator.t)
    (index : nat) (seg : segment) (w : W)
  : W * list call * option (nat * str) :=
  match seg with
  | DialogueSegment _ _ => (w, [], None)
  | DictSegment sp tx =>
      if bool_decide (stripped sp = []) || bool_decide (stripped tx = [])
      then (w, [], None)
      else
        match PodcastAudioGenerator.voice_configs self !! stripped sp with
        | None => (w, [], None)
        | Some vc =>
            let filename :=
              PodcastAudioGenerator.filename_of self index (stripped sp) in
            let req := PodcastAudioGenerator.request_of (stripped tx) vc in
            match text_to_speech_convert req w with
            | (w1, inl _) => (w1, [Call_convert req], None)
            | (w1, inr chunks) =>
                let data := join_bytes chunks in
                let written := [Call_convert req; Call_write filename data] in
                match open_write filename data w1 with
                | (w2, inl _) => (w2, written, None)
                | (w2, inr _) =>
                    if normalize (PodcastAudioGenerator.audio_config self) then
                      match from_file filename w2 with
                      | (w3, inl _) =>
                          (w3, written ++ [Call_from_file filename], None)
                      | (w3, inr audio) =>
                          let boosted :=
                            apply_gain (effects_normalize audio) 4 in
                          let args :=
                            PodcastAudioGenerator.normalize_args self in
                          match export boosted filename args w3 with
                          | (w4, r) =>
                              (w4,
                               written ++ [Call_from_file filename;
                                           Call_export boosted filename args],
                               match r with
                               | inl _ => None
                               | inr _ => Some (index, filename)
                               end)
                          end
                      end
                    else (w2, written, Some (index, filename))
                end
            end
        end
  end.

(** The lines of a script one after the other, from [index] on: each line
    starts in the world the line before it left, whether that line
    produced a file or not.  The result lists the lines that produced a
    file, with their files, in script order. *)
Fixpoint script_effect `{Platform} (self : PodcastAudioGenerator.t)
    (index : nat) (dialogue : list segment) (w : W)
  : W * list call * list (nat * str) :=
  match dialogue with
  | [] => (w, [], [])
  | seg :: rest =>
      let '(w1, cs1, o1) := line_effect self index seg w in
      let '(w2, cs2, o2) := script_effect self (S index) rest w1 in
      (w2, cs1 ++ cs2, option_list o1 ++ o2)
  end.

(** Line [i] of [dialogue] produces the file [p]: in the world the lines
    before it leave, starting from [w1], the line passes the guards and
    every step of its [try] body succeeds. *)
Definition produces `{Platform} (self : PodcastAudioGenerator.t)
    (dialogue : list segment) (w1 : W) (i : nat) (p : str) : Prop :=
  ∃ seg, dialogue !! i = Some seg
    ∧ (line_effect self i seg
         (script_effect self 0 (take i dialogue) w1).1.1).2 = Some (i, p).

(** A call of the normalization pass. *)
Definition is_normalize_call `{Platform} (c : call) : bool :=
  is_from_file c || is_export c.

(** Further kinds of external call. *)
Definition is_convert `{Platform} (c : call) : bool :=
  match c with Call_convert _ => true | _ => false end.

Definition is_makedirs `{Platform} (c : call) : bool :=
  match c with Call_makedirs _ => true | _ => false end.

Definition is_exists `{Platform} (c : call) : bool :=
  match c with Call_exists _ => true | _ => false end.

Definition is_getcwd `{Platform} (c : call) : bool :=
  match c with Call_getcwd => true | _ => false end.

(** The entry [e] with another [apply_text_normalization]. *)
Definition with_text_normalization (mode : str) (e : voice_entry) : voice_entry :=
  {| voice_id := voice_id e;
     config := {| stability := stability (config e);
                  similarity_boost := similarity_boost (config e);
                  style := style (config e);
                  use_speaker_boost := use_speaker_boost (config e);
                  model_id := model_id (config e);
                  output_format := output_format (config e);
                  apply_text_normalization := mode |} |}.

(** Two registry lookups that send the same requests to the provider. *)
Definition same_requests (a b : option voice_entry) : Prop :=
  match a, b with
  | Some x, Some y =>
      ∀ text, PodcastAudioGenerator.request_of text x
              = PodcastAudioGenerator.request_of text y
  | None, None => True
  | _, _ => False
  end.

(** Two generators that agree on what [_run] reads of [audio_config]. *)
Definition same_render_settings (self1 self2 : PodcastAudioGenerator.t) : Prop :=
  PodcastAudioGenerator.output_dir self1 = PodcastAudioGenerator.output_dir self2
  ∧ format (PodcastAudioGenerator.audio_config self1)
    = format (PodcastAudioGenerator.audio_config self2)
  ∧ bitrate (PodcastAudioGenerator.audio_config self1)
    = bitrate (PodcastAudioGenerator.audio_config self2)
  ∧ sample_rate (PodcastAudioGenerator.audio_config self1)
    = sample_rate (PodcastAudioGenerator.audio_config self2)
  ∧ normalize (PodcastAudioGenerator.audio_config self1)
    = normalize (PodcastAudioGenerator.audio_config self2).

(** The calls the validation loop makes for one present or missing file
    that resolves to [path]. *)
Definition check_calls `{Platform} (af path : str) : list call :=
  (if isabs af then [] else [Call_getcwd]) ++ [Call_exists path].

Opaque lit.
Arguments path_join : simpl never.
Arguments isabs : simpl never.
Arguments strip : simpl never.
Arguments sorted : simpl never.
Arguments str_of_nat : simpl never.
Arguments str_of_int : simpl never.
Arguments format_03d : simpl never.

(** * Properties *)

Example format_03d_7 : format_03d 7 = lit "007".
Proof. vm_compute. reflexivity. Qed.

Example format_03d_1000 : format_03d 1000 = lit "1000".
Proof. vm_compute. reflexivity. Qed.

Example strip_ex : strip (lit "  Host A ") = lit "Host A".
Proof. vm_compute. reflexivity. Qed.

Example sorted_ex :
  sorted [lit "out/002_A.mp3"; lit "out/000_A.mp3"]
  = [lit "out/000_A.mp3"; lit "out/002_A.mp3"].
Proof. vm_compute. reflexivity. Qed.

Example join_ex : path_join (lit "output/podcast") (lit "podcast_final.mp3")
                  = lit "output/podcast/podcast_final.mp3".
Proof. vm_compute. reflexivity. Qed.

(** ** The order on strings *)

Section StrOrder.

Lemma str_leb_refl (a : str) : str_leb a a = true.
Proof.
  induction a as [|x a IH]; simpl; [done|].
  rewrite N.ltb_irrefl, N.eqb_refl. exact IH.
Qed.

Lemma str_leb_cons (x y : char) (a b : str) :
  str_leb (x :: a) (y :: b) = true ↔ (x < y)%N ∨ (x = y ∧ str_leb a b = true).
Proof.
  simpl. destruct (N.ltb_spec x y) as [Hlt|Hge].
  - split; [by left | done].
  - destruct (N.eqb_spec x y) as [->|Hne].
    + split; [by right | intros [?|[_ ?]]; [lia | done]].
    + split; [done | intros [?|[? _]]; [lia | done]].
Qed.

#[global] Instance str_le_refl : Reflexive str_le.
Proof. intros a. apply str_leb_refl. Qed.

#[global] Instance str_le_trans : Transitive str_le.
Proof.
  unfold str_le. intros a. induction a as [|x a IH]; intros b c Hab Hbc.
  - done.
  - destruct b as [|y b]; [done|]. destruct c as [|z c]; [done|].
    apply str_leb_cons in Hab. apply str_leb_cons in Hbc. apply str_leb_cons.
    destruct Hab as [?|[-> Hab]], Hbc as [?|[-> Hbc]]; [left; lia ..|].
    right. split; [done|]. by apply (IH b c).
Qed.

#[global] Instance str_le_total : Total str_le.
Proof.
  unfold str_le. intros a. induction a as [|x a IH]; intros b.
  - by left.
  - destruct b as [|y b]; [by right|].
    rewrite !str_leb_cons.
    destruct (N.lt_trichotomy x y) as [?|[->|?]]; [by left; left | | by right; left].
    destruct (IH b); [left | right]; by right.
Qed.

#[global] Instance str_le_antisym : AntiSymm (=) str_le.
Proof.
  unfold str_le. intros a. induction a as [|x a IH]; intros b Hab Hba.
  - by destruct b.
  - destruct b as [|y b]; [done|].
    apply str_leb_cons in Hab. apply str_leb_cons in Hba.
    destruct Hab as [?|[-> Hab]], Hba as [?|[? Hba]]; try lia.
    f_equal. by apply IH.
Qed.

Lemma str_leb_app (p a b : str) : str_leb (p ++ a) (p ++ b) = str_leb a b.
Proof.
  induction p as [|x p IH]; simpl; [done|].
  by rewrite N.ltb_irrefl, N.eqb_refl.
Qed.

(** Two strings that differ inside heads of the same length compare as
    the heads do. *)
Lemma str_leb_heads (x y r1 r2 : str) :
  length x = length y → str_leb y x = false → str_leb (x ++ r1) (y ++ r2) = true.
Proof.
  revert y. induction x as [|c x IH]; intros [|d y] Hlen Hyx; simplify_eq/=.
  destruct (N.ltb_spec d c); [done|].
  destruct (N.eqb_spec d c) as [->|Hne].
  - rewrite N.ltb_irrefl, N.eqb_refl. by apply IH.
  - destruct (N.ltb_spec c d); [done | lia].
Qed.

Lemma sorted_of_sorted (l : list str) : Sorted str_le l → sorted l = l.
Proof.
  intros Hl. apply (Sorted_unique str_le); [|done|].
  - apply (Sorted_merge_sort str_le).
  - apply merge_sort_Permutation.
Qed.

Lemma sorted_is_sorted (l : list str) : Sorted str_le (sorted l).
Proof. apply (Sorted_merge_sort str_le). Qed.

Lemma sorted_perm (l : list str) : sorted l ≡ₚ l.
Proof. apply merge_sort_Permutation. Qed.

End StrOrder.

(** ** Formatting the ordinal *)

Section Ordinal.

Lemma uint_chars_digits (d : Decimal.uint) :
  Forall (λ c, is_digit c = true) (uint_chars d).
Proof. induction d; simpl; constructor; done. Qed.

Lemma format_03d_digits (n : nat) :
  Forall (λ c, is_digit c = true) (format_03d n).
Proof.
  unfold format_03d. apply Forall_app. split.
  - apply Forall_forall. intros c Hc. apply list_elem_of_In, repeat_spec in Hc.
    by subst.
  - apply uint_chars_digits.
Qed.

Lemma format_03d_length (n : nat) : 3 ≤ length (format_03d n).
Proof.
  unfold format_03d, char. rewrite length_app, repeat_length. lia.
Qed.

Lemma leading_digits_app (ds rest : str) (c : char) :
  Forall (λ c, is_digit c = true) ds → is_digit c = false →
  leading_digits (ds ++ c :: rest) = ds.
Proof.
  intros Hds Hc. induction Hds as [|d ds Hd _ IH]; simpl.
  - by rewrite Hc.
  - by rewrite Hd, IH.
Qed.

Lemma number_of_uint (d : Decimal.uint) (acc : nat) :
  fold_left (λ acc c, 10 * acc + N.to_nat (c - 48)) (uint_chars d) acc
  = Nat.of_uint_acc d acc.
Proof.
  revert acc.
  induction d as [|d IH|d IH|d IH|d IH|d IH|d IH|d IH|d IH|d IH|d IH];
    intros acc; cbn [uint_chars fold_left Nat.of_uint_acc]; [done | rewrite IH ..];
    f_equal; rewrite Nat.tail_mul_spec;
    match goal with |- context [N.to_nat ?n] =>
      let v := eval vm_compute in (N.to_nat n) in change (N.to_nat n) with v
    end; lia.
Qed.

Lemma number_of_zeros (k : nat) (s : str) :
  number_of (repeat 48%N k ++ s) = number_of s.
Proof.
  unfold number_of. rewrite fold_left_app. f_equal.
  induction k as [|k IH]; simpl; [done|]. exact IH.
Qed.

Lemma number_of_format_03d (n : nat) : number_of (format_03d n) = n.
Proof.
  unfold format_03d. rewrite number_of_zeros. unfold number_of, str_of_nat.
  rewrite number_of_uint. apply DecimalNat.Unsigned.of_to.
Qed.

Lemma startswith_app (p s : str) : startswith (p ++ s) p = true.
Proof.
  induction p as [|c p IH]; simpl; [done|]. by rewrite N.eqb_refl.
Qed.

Lemma lit_slash : lit "/" = [47%N].
Proof. vm_compute. reflexivity. Qed.

Lemma lit_underscore : lit "_" = [95%N].
Proof. vm_compute. reflexivity. Qed.

Lemma ordinal_prefix_filename (self : PodcastAudioGenerator.t) (i : nat)
    (speaker : str) :
  ordinal_prefix (PodcastAudioGenerator.output_dir self)
    (PodcastAudioGenerator.filename_of self i speaker) = Some i.
Proof.
  unfold ordinal_prefix, PodcastAudioGenerator.filename_of.
  set (dir := PodcastAudioGenerator.output_dir self).
  rewrite (app_assoc dir), startswith_app.
  rewrite drop_app_length'; [|rewrite length_app, lit_slash; simpl; lia].
  rewrite lit_underscore. simpl.
  rewrite leading_digits_app; [|apply format_03d_digits|done].
  pose proof (format_03d_length i) as Hlen.
  destruct (format_03d i) as [|c ds] eqn:Hfmt; [simpl in Hlen; lia|].
  rewrite <- Hfmt. by rewrite number_of_format_03d.
Qed.

Lemma forallb_below (f : nat → bool) (k : nat) :
  forallb f (seq 0 k) = true → ∀ n, n < k → f n = true.
Proof.
  intros Hall n Hn. rewrite forallb_forall in Hall.
  apply Hall, in_seq. lia.
Qed.

Lemma format_03d_three (n : nat) : n < 1000 → length (format_03d n) = 3.
Proof.
  intros Hn.
  apply (forallb_below (λ n, length (format_03d n) =? 3) 1000) in Hn.
  - by apply Nat.eqb_eq.
  - vm_compute. reflexivity.
Qed.

Lemma format_03d_succ (n : nat) :
  n < 999 → str_leb (format_03d (S n)) (format_03d n) = false.
Proof.
  intros Hn.
  apply (forallb_below
           (λ n, negb (str_leb (format_03d (S n)) (format_03d n))) 999) in Hn.
  - by apply negb_true_iff.
  - vm_compute. reflexivity.
Qed.

Lemma str_leb_false_trans (a b c : str) :
  str_leb b a = false → str_leb c b = false → str_leb c a = false.
Proof.
  intros Hba Hcb. destruct (str_leb c a) eqn:Hca; [|done].
  destruct (str_le_total a b) as [Hab|Hab]; [|unfold str_le in Hab; congruence].
  assert (str_le c b) as Hcb' by (etrans; [exact Hca | exact Hab]).
  unfold str_le in Hcb'. congruence.
Qed.

Lemma format_03d_mono (i j : nat) :
  i < j → j < 1000 → str_leb (format_03d j) (format_03d i) = false.
Proof.
  intros Hij Hj. induction Hij as [|j Hij IH].
  - apply format_03d_succ. lia.
  - apply (str_leb_false_trans _ (format_03d j)); [apply IH; lia|].
    apply format_03d_succ. lia.
Qed.

(** Below a thousand lines the file names are in the order of the lines. *)
Lemma filename_of_mono (self : PodcastAudioGenerator.t) (i j : nat)
    (sp1 sp2 : str) :
  i < j → j < 1000 →
  str_le (PodcastAudioGenerator.filename_of self i sp1)
         (PodcastAudioGenerator.filename_of self j sp2).
Proof.
  intros Hij Hj. unfold str_le, PodcastAudioGenerator.filename_of.
  rewrite !str_leb_app. apply str_leb_heads.
  - rewrite !format_03d_three; [done | lia ..].
  - by apply format_03d_mono.
Qed.

End Ordinal.

(** ** Running the monad *)

Ltac unfold_run :=
  unfold makedirs, getcwd, path_exists, write_file, convert,
    AudioSegment_from_file, AudioSegment_export, effect, query, print,
    print_exc, lift_exn, try_except, bind, ret, raise, log, set_world in *.

(** ** The mixer *)

Section Mixer.
Context `{Platform}.
Import PodcastMixer.

Implicit Types (self : PodcastMixer.t) (s : state) (crossfade : Z).

Lemma final_name_relative :
  startswith (lit "podcast_final.mp3") (lit "/") = false.
Proof. vm_compute. reflexivity. Qed.

Lemma final_path_nonempty self : final_path self ≠ [].
Proof.
  assert (lit "podcast_final.mp3" ≠ []) as Hname by (vm_compute; discriminate).
  unfold final_path, path_join. rewrite final_name_relative.
  destruct (_ || _); intros Heq; apply app_eq_nil in Heq as [_ Heq]; [done|].
  by apply app_eq_nil in Heq as [_ Heq].
Qed.

Lemma final_path_isabs self : isabs (final_path self) = isabs (output_dir self).
Proof.
  unfold final_path, path_join. rewrite final_name_relative.
  destruct (output_dir self) as [|c dir]; [by vm_compute|].
  destruct (_ || _); unfold isabs; reflexivity.
Qed.

Lemma resolve_run (af : str) s :
  ∃ new, resolve af s
         = (State (world s) (calls s ++ new) (stdout s) (tracebacks s),
            resolved_path (world s) af)
    ∧ Forall (λ c, is_query c = true) new.
Proof.
  unfold resolve, resolved_path. destruct (isabs af).
  - exists []. rewrite app_nil_r. by destruct s.
  - exists [Call_getcwd]. unfold_run. simpl. split; [|by repeat constructor].
    by destruct (os_getcwd (world s)).
Qed.

Lemma validate_effects (files validated : list str) s s' r :
  validate files validated s = (s', r) →
  world s' = world s
  ∧ ∃ new, calls s' = calls s ++ new ∧ Forall (λ c, is_query c = true) new.
Proof.
  revert validated s. induction files as [|af rest IH]; intros validated s Hrun.
  - simpl in Hrun. unfold_run. simplify_eq/=. split; [done|]. exists [].
    by rewrite app_nil_r.
  - simpl in Hrun. unfold bind at 1 in Hrun.
    destruct (resolve_run af s) as (new1 & Hr & Hnew1). rewrite Hr in Hrun.
    destruct (resolved_path (world s) af) as [e|segment_path].
    { simplify_eq/=. split; [done|]. by exists new1. }
    unfold bind at 1, path_exists, query, log in Hrun. simpl in Hrun.
    destruct (os_path_exists segment_path (world s)); simpl in Hrun.
    + apply IH in Hrun as [Hw (new2 & Hc & Hnew2)]. simpl in *.
      split; [done|]. exists (new1 ++ [Call_exists segment_path] ++ new2).
      rewrite Hc, <- !app_assoc. split; [done|].
      apply Forall_app; split; [done|]. apply Forall_app; split; [|done].
      by repeat constructor.
    + unfold_run. simplify_eq/=. split; [done|].
      exists (new1 ++ [Call_exists segment_path]).
      split; [by rewrite <- app_assoc|].
      apply Forall_app; split; [done|]. by repeat constructor.
Qed.

Lemma validate_present (files paths validated : list str) s :
  Forall2 (present (world s)) files paths →
  ∃ s', validate files validated s = (s', inr (Fallthrough (validated ++ paths))).
Proof.
  revert paths validated s.
  induction files as [|af rest IH]; intros paths validated s Hall.
  - apply Forall2_nil_inv_l in Hall as ->. rewrite app_nil_r. by eexists.
  - apply Forall2_cons_inv_l in Hall as (p & ps & [Hres Hex] & Hall & ->).
    simpl. unfold bind at 1.
    destruct (resolve_run af s) as (new1 & -> & _). rewrite Hres.
    unfold bind at 1, path_exists, query, log. simpl. rewrite Hex. simpl.
    match goal with
    | |- ∃ _, validate _ _ ?st = _ =>
        destruct (IH ps (validated ++ [p]) st Hall) as [s' Hs']
    end.
    rewrite Hs', <- app_assoc. by eexists.
Qed.

Lemma validate_missing (files validated : list str) (af : str) s s' r :
  af ∈ files → missing (world s) af →
  validate files validated s = (s', r) →
  r = inr (Return []) ∨ ∃ e, r = inl e.
Proof.
  intros Hin Hmiss. revert validated s Hmiss.
  induction files as [|af0 rest IH]; intros validated s Hmiss Hrun.
  - by apply elem_of_nil in Hin.
  - simpl in Hrun. unfold bind at 1 in Hrun.
    destruct (resolve_run af0 s) as (new1 & Hr & _). rewrite Hr in Hrun.
    destruct (resolved_path (world s) af0) as [e|segment_path] eqn:Hres.
    { simplify_eq/=. right. by eexists. }
    unfold bind at 1, path_exists, query, log in Hrun. simpl in Hrun.
    destruct (os_path_exists segment_path (world s)) eqn:Hex; simpl in Hrun.
    + apply elem_of_cons in Hin as [->|Hin].
      * destruct Hmiss as (p & Hp & Hno). congruence.
      * by apply (IH Hin) in Hrun.
    + unfold_run. simplify_eq/=. by left.
Qed.

Lemma validate_return (files validated : list str) (v : str) s s' :
  validate files validated s = (s', inr (Return v)) → v = [].
Proof.
  revert validated s. induction files as [|af rest IH]; intros validated s Hrun.
  - simpl in Hrun. unfold_run. simplify_eq/=.
  - simpl in Hrun. unfold bind at 1 in Hrun.
    destruct (resolve_run af s) as (new1 & Hr & _). rewrite Hr in Hrun.
    destruct (resolved_path (world s) af) as [e|segment_path]; [simplify_eq/=|].
    unfold bind at 1, path_exists, query, log in Hrun. simpl in Hrun.
    destruct (os_path_exists segment_path (world s)); simpl in Hrun.
    + by apply IH in Hrun.
    + unfold_run. by simplify_eq/=.
Qed.

Lemma filter_none {A} (f : A → bool) (l : list A) :
  Forall (λ c, f c = false) l → List.filter f l = [].
Proof.
  induction 1 as [|c l Hc _ IH]; simpl; [done|]. by rewrite Hc.
Qed.

Lemma queries_no_export (l : list call) :
  Forall (λ c, is_query c = true) l → Forall (λ c, is_export c = false) l.
Proof. intros Hl. eapply Forall_impl; [exact Hl|]. by intros []. Qed.

Lemma decodes_no_export (l : list call) :
  Forall (λ c, is_from_file c = true) l → Forall (λ c, is_export c = false) l.
Proof. intros Hl. eapply Forall_impl; [exact Hl|]. by intros []. Qed.

Lemma merge_effects crossfade (i : nat) (files : list str) (mixed : Audio) s s' r :
  merge crossfade i files mixed s = (s', r) →
  ∃ new, calls s' = calls s ++ new ∧ Forall (λ c, is_from_file c = true) new.
Proof.
  revert i mixed s. induction files as [|f rest IH]; intros i mixed s Hrun.
  - simpl in Hrun. unfold_run. simplify_eq. exists []. by rewrite app_nil_r.
  - simpl in Hrun. unfold bind at 1, AudioSegment_from_file, effect in Hrun.
    simpl in Hrun. destruct (from_file f (world s)) as [w1 [e|seg]].
    { simplify_eq/=. exists [Call_from_file f]. by repeat constructor. }
    unfold bind at 1, lift_exn in Hrun.
    destruct (seg_append mixed (seg_add (silent 200) seg) crossfade) as [e|mixed'].
    { simplify_eq/=. exists [Call_from_file f]. by repeat constructor. }
    unfold bind at 1, print in Hrun. simpl in Hrun.
    apply IH in Hrun as (new & Hc & Hnew). simpl in Hc.
    exists (Call_from_file f :: new). rewrite Hc, <- app_assoc.
    split; [done|]. by constructor.
Qed.

Lemma merge_track crossfade (i : nat) (paths : list str) (mixed track : Audio)
    (segs : list Audio) (w2 : W) s :
  decode_all paths (world s) = (w2, inr segs) →
  crossfade_chain crossfade mixed segs = inr track →
  ∃ s', merge crossfade i paths mixed s = (s', inr track)
    ∧ world s' = w2 ∧ calls s' = calls s ++ map Call_from_file paths.
Proof.
  revert i mixed segs s.
  induction paths as [|p ps IH]; intros i mixed segs s Hdec Hchain.
  - simpl in Hdec. simplify_eq. simpl in Hchain. simplify_eq.
    eexists. split; [reflexivity|]. by rewrite app_nil_r.
  - simpl in Hdec. simpl.
    unfold bind at 1, AudioSegment_from_file, effect. simpl.
    destruct (from_file p (world s)) as [w1 [e|seg]]; [done|].
    destruct (decode_all ps w1) as [w2' [e|l]] eqn:Hrest; [done|].
    simplify_eq. simpl in Hchain. unfold bind at 1, lift_exn.
    destruct (seg_append mixed (seg_add (silent 200) seg) crossfade)
      as [e|mixed']; [done|].
    unfold bind at 1, print. simpl.
    match goal with
    | |- ∃ _, merge _ _ _ _ ?st = _ ∧ _ =>
        destruct (IH (S i) mixed' l st Hrest Hchain) as (s' & Hs' & Hw & Hc)
    end.
    exists s'. rewrite Hs', Hc. simpl. by rewrite <- app_assoc.
Qed.

(** What a run of the body of the [try] can do. *)
Lemma try_body_run self (files : list str) crossfade s s1 r :
  PodcastMixer.try_body self files crossfade s = (s1, r) →
  ∃ new, calls s1 = calls s ++ Call_makedirs (output_dir self) :: new
    ∧ ∀ v, r = inr v →
        v = [] ∨ (v = final_path self
                  ∧ ∃ mixed, List.filter is_export new
                             = [Call_export mixed (final_path self) final_args]).
Proof.
  unfold PodcastMixer.try_body. intros Hrun.
  unfold bind at 1, makedirs, effect in Hrun. simpl in Hrun.
  destruct (os_makedirs (output_dir self) (world s)) as [w1 [e|[]]].
  { simplify_eq/=. by exists []. }
  unfold bind at 1, print in Hrun. simpl in Hrun.
  unfold bind at 1 in Hrun.
  match type of Hrun with
  | context [validate files [] ?st] =>
      destruct (validate files [] st) as [s2 [e|[v|validated]]] eqn:Hval
  end.
  - apply validate_effects in Hval as [_ (new & Hc & _)].
    simpl in Hc. rewrite <- app_assoc in Hc. simplify_eq/=. by exists new.
  - pose proof (validate_return _ _ _ _ _ Hval) as ->.
    apply validate_effects in Hval as [_ (new & Hc & _)].
    simpl in Hc. rewrite <- app_assoc in Hc.
    unfold ret in Hrun. simplify_eq/=. exists new. split; [done|].
    intros v ?. simplify_eq. by left.
  - apply validate_effects in Hval as [_ (checks & Hc & Hchecks)].
    simpl in Hc. rewrite <- app_assoc in Hc. simpl in Hc.
    unfold bind at 1 in Hrun.
    destruct validated as [|first rest]; unfold_run; [simplify_eq/=; by eexists|].
    simpl in Hrun. destruct (from_file first (world s2)) as [w2 [e|mixed0]].
    { simplify_eq/=. eexists. rewrite Hc, <- app_assoc. done. }
    match type of Hrun with
    | context [merge crossfade 0 rest mixed0 ?st] =>
        destruct (merge crossfade 0 rest mixed0 st) as [s3 [e|mixed]] eqn:Hmerge
    end; apply merge_effects in Hmerge as (decodes & Hc3 & Hdecodes);
      simpl in Hc3; rewrite Hc, <- !app_assoc in Hc3; simpl in Hc3.
    { simplify_eq/=. by eexists. }
    simpl in Hrun.
    destruct (export mixed _ final_args (world s3)) as [w4 [e|[]]];
      simplify_eq/=.
    { eexists. rewrite Hc3, <- !app_assoc. done. }
    fold (final_path self).
    exists (checks ++ [Call_from_file first] ++ decodes
            ++ [Call_export mixed (final_path self) final_args]).
    split; [rewrite Hc3; by repeat (rewrite <- ?app_assoc; simpl)|].
    intros v ?. simplify_eq. right. split; [done|]. exists mixed.
    rewrite !List.filter_app, (filter_none _ checks), (filter_none _ decodes);
      [done | by apply decodes_no_export | by apply queries_no_export].
Qed.

Lemma run_nonempty self (af : str) (rest : list str) crossfade s :
  PodcastMixer._run self (af :: rest) crossfade s
  = match PodcastMixer.try_body self (af :: rest) crossfade s with
    | (s1, inl e) =>
        (State (world s1) (calls s1)
           (stdout s1 ++ [lit "CRITICAL ERROR IN PODCASTMIXER: " ++ exn_msg e])
           (tracebacks s1 ++ [e]), inr [])
    | (s1, inr v) => (s1, inr v)
    end.
Proof.
  unfold PodcastMixer._run, try_except.
  destruct (PodcastMixer.try_body self (af :: rest) crossfade s) as [s1 [e|v]];
    done.
Qed.

(** C6: the mixer never propagates an exception.  Whatever the platform
    does, [_run] returns a value, which is the empty string or the
    (non-empty) path of the final file; and when the body of the [try]
    raises, for a non-empty input, the value is the empty string. *)
Theorem mixer_never_raises self (files : list str) crossfade s :
  (∃ s' out, PodcastMixer._run self files crossfade s = (s', inr out)
     ∧ (out = [] ∨ (out = final_path self ∧ out ≠ [])))
  ∧ (∀ s1 e, files ≠ [] →
       PodcastMixer.try_body self files crossfade s = (s1, inl e) →
       snd (PodcastMixer._run self files crossfade s) = inr []).
Proof.
  split.
  - destruct files as [|af rest].
    + eexists _, []. split; [reflexivity | by left].
    + rewrite run_nonempty.
      destruct (PodcastMixer.try_body self (af :: rest) crossfade s)
        as [s1 [e|v]] eqn:Hbody.
      * eexists _, []. split; [reflexivity | by left].
      * exists s1, v. split; [done|].
        apply try_body_run in Hbody as (new & _ & Hv).
        destruct (Hv v eq_refl) as [->|[-> _]]; [by left | right].
        split; [done | apply final_path_nonempty].
  - intros s1 e Hne Hbody. destruct files as [|af rest]; [done|].
    by rewrite run_nonempty, Hbody.
Qed.


(** C3: a missing input aborts the mix.  Let [w1] be the world that
    [os.makedirs] leaves.  If some input file is missing when the
    validation loop looks for it, the run returns the empty string, its
    only calls after [makedirs] are [getcwd] and [exists] queries (no file
    is decoded, nothing is exported or written), and the world it leaves
    is [w1]: whatever [makedirs] does not touch, such as an earlier
    [podcast_final.mp3], is as it was. *)
Theorem mixer_missing_file_aborts self (files : list str) crossfade s
    (w1 : W) (r : exn + unit) (af : str) :
  os_makedirs (output_dir self) (world s) = (w1, r) →
  af ∈ files →
  missing w1 af →
  ∃ s' new,
    PodcastMixer._run self files crossfade s = (s', inr [])
    ∧ world s' = w1
    ∧ calls s' = calls s ++ Call_makedirs (output_dir self) :: new
    ∧ Forall (λ c, is_query c = true) new
    ∧ ∀ (X : Type) (obs : W → X),
        (∀ p w, obs (fst (os_makedirs p w)) = obs w) →
        obs (world s') = obs (world s).
Proof.
  intros Hmk Hin Hmiss.
  assert (∀ s' : state, world s' = w1 →
            ∀ (X : Type) (obs : W → X),
              (∀ p w, obs (fst (os_makedirs p w)) = obs w) →
              obs (world s') = obs (world s)) as Hframe.
  { intros s' -> X obs Hobs. by rewrite <- (Hobs (output_dir self) (world s)), Hmk. }
  destruct files as [|af0 rest]; [by apply elem_of_nil in Hin|].
  rewrite run_nonempty. unfold PodcastMixer.try_body.
  remember (af0 :: rest) as files eqn:Hfiles.
  unfold bind at 1, makedirs, effect. simpl. rewrite Hmk.
  destruct r as [e|[]].
  { eexists _, []. simpl. split_and!; [done..|by apply Hframe]. }
  unfold bind at 1, print. simpl. unfold bind at 1.
  match goal with
  | |- context [validate files [] ?st] =>
      destruct (validate files [] st) as [s2 [e|chk]] eqn:Hval;
      pose proof (validate_missing files [] af st _ _ Hin Hmiss Hval) as Hres;
      apply validate_effects in Hval as [Hw (new & Hc & Hnew)]
  end; simpl in Hw, Hc; rewrite <- app_assoc in Hc; simpl in Hc.
  - eexists _, new. simpl. split_and!; [done..|by apply Hframe].
  - destruct Hres as [?|[? ?]]; [|done]. simplify_eq. unfold ret.
    eexists _, new. split_and!; [done..|by apply Hframe].
Qed.

(** A run whose inputs are all present and decode, and whose crossfades
    succeed: what it exports and what it returns. *)
Lemma run_exports self (files paths : list str) crossfade s (w1 w2 : W)
    (first track : Audio) (segs : list Audio) :
  os_makedirs (output_dir self) (world s) = (w1, inr tt) →
  Forall2 (present w1) files paths →
  decode_all paths w1 = (w2, inr (first :: segs)) →
  crossfade_chain crossfade first segs = inr track →
  ∃ s' checks,
    PodcastMixer._run self files crossfade s
    = (s', inr (match snd (export track (final_path self) final_args w2) with
                | inl _ => []
                | inr _ => final_path self
                end))
    ∧ world s' = fst (export track (final_path self) final_args w2)
    ∧ Forall (λ c, is_query c = true) checks
    ∧ calls s'
      = calls s ++ Call_makedirs (output_dir self) :: checks
        ++ map Call_from_file paths
        ++ [Call_export track (final_path self) final_args].
Proof.
  intros Hmk Hpresent Hdec Hchain.
  destruct paths as [|p0 ps]; [done|].
  apply Forall2_cons_inv_r in Hpresent as (af & rest & Hp0 & Hps & ->).
  rewrite run_nonempty. unfold PodcastMixer.try_body.
  remember (af :: rest) as files eqn:Hfiles.
  unfold bind at 1, makedirs, effect. simpl. rewrite Hmk.
  unfold bind at 1, print. simpl. unfold bind at 1.
  match goal with
  | |- context [validate files [] ?st] =>
      destruct (validate_present files (p0 :: ps) [] st) as [s2 Hval];
      [subst files; by constructor|]; rewrite Hval;
      apply validate_effects in Hval as [Hw (checks & Hc & Hchecks)]
  end.
  simpl in Hw, Hc. rewrite <- app_assoc in Hc. simpl in Hc.
  simpl in Hdec. simpl. unfold bind at 1, ret.
  unfold bind at 1, AudioSegment_from_file, effect. simpl. rewrite Hw.
  destruct (from_file p0 w1) as [w1' [e|a0]]; [done|].
  destruct (decode_all ps w1') as [w2' [e|l]] eqn:Hrest; [done|]. simplify_eq.
  unfold bind at 1, print. simpl. unfold bind at 1.
  match goal with
  | |- context [merge crossfade 0 ps first ?st] =>
      destruct (merge_track crossfade 0 ps first track segs w2 st Hrest Hchain)
        as (s3 & Hmerge & Hw3 & Hc3)
  end.
  rewrite Hmerge. simpl in Hc3. unfold bind at 1, print. simpl.
  unfold bind at 1, AudioSegment_export, effect. simpl.
  fold (final_path self). rewrite Hw3.
  destruct (export track (final_path self) final_args w2) as [w4 [e|[]]];
    simpl; eexists _, checks; (split_and!; [reflexivity | done | done |]);
    simpl; rewrite Hc3, Hc; by repeat (rewrite <- ?app_assoc; simpl).
Qed.

(** A run one of whose inputs is missing returns the empty string. *)
Lemma run_missing self (files : list str) crossfade s (w1 : W)
    (r : exn + unit) (af : str) :
  os_makedirs (output_dir self) (world s) = (w1, r) →
  af ∈ files →
  missing w1 af →
  ∃ s', PodcastMixer._run self files crossfade s = (s', inr []).
Proof.
  intros Hmk Hin Hmiss.
  destruct files as [|af0 rest]; [by apply elem_of_nil in Hin|].
  rewrite run_nonempty. unfold PodcastMixer.try_body.
  remember (af0 :: rest) as files eqn:Hfiles.
  unfold bind at 1, makedirs, effect. simpl. rewrite Hmk.
  destruct r as [e|[]]; [by eexists|].
  unfold bind at 1, print. simpl. unfold bind at 1.
  match goal with
  | |- context [validate files [] ?st] =>
      destruct (validate files [] st) as [s2 [e|chk]] eqn:Hval;
      pose proof (validate_missing files [] af st _ _ Hin Hmiss Hval) as Hres
  end.
  - by eexists.
  - destruct Hres as [?|[? ?]]; [|done]. simplify_eq. unfold ret. by eexists.
Qed.

(** C5, as the code has it: the mixer returns the empty string or
    [os.path.join(self.output_dir, "podcast_final.mp3")], a path that is
    absolute exactly when [output_dir] is (the default [output/podcast] is
    not).  It returns the path, which is not the empty string, when
    [makedirs] succeeds, every input is present and decodes, and the
    crossfades and the export succeed; the run then made exactly one
    export, of the mixed track, to that path and with the fixed
    arguments, and leaves the world the export left.  It returns the
    empty string when the input list is empty (and then makes no call),
    when an input is missing, and when the body of the [try] raises. *)
Theorem mixer_result self (files : list str) crossfade s :
  ∃ s' out new,
    PodcastMixer._run self files crossfade s = (s', inr out)
    ∧ calls s' = calls s ++ new
    ∧ (out = []
       ∨ (out = final_path self
          ∧ isabs out = isabs (output_dir self)
          ∧ ∃ mixed, List.filter is_export new
                     = [Call_export mixed out final_args]))
    ∧ (∀ s1 e, PodcastMixer.try_body self files crossfade s = (s1, inl e) →
         out = [])
    ∧ (files = [] → out = [] ∧ new = [])
    ∧ (∀ (w1 : W) (r : exn + unit) (af : str),
         os_makedirs (output_dir self) (world s) = (w1, r) →
         af ∈ files → missing w1 af → out = [])
    ∧ (∀ (paths : list str) (w1 w2 w3 : W) (first track : Audio)
         (segs : list Audio),
         os_makedirs (output_dir self) (world s) = (w1, inr tt) →
         Forall2 (present w1) files paths →
         decode_all paths w1 = (w2, inr (first :: segs)) →
         crossfade_chain crossfade first segs = inr track →
         export track (final_path self) final_args w2 = (w3, inr tt) →
         out = final_path self
         ∧ out ≠ []
         ∧ world s' = w3
         ∧ List.filter is_export new
           = [Call_export track (final_path self) final_args]).
Proof.
  assert (∃ s' out new,
            PodcastMixer._run self files crossfade s = (s', inr out)
            ∧ calls s' = calls s ++ new
            ∧ (out = []
               ∨ (out = final_path self
                  ∧ isabs out = isabs (output_dir self)
                  ∧ ∃ mixed, List.filter is_export new
                             = [Call_export mixed out final_args]))
            ∧ (∀ s1 e, PodcastMixer.try_body self files crossfade s
                       = (s1, inl e) → out = [])
            ∧ (files = [] → out = [] ∧ new = []))
    as (s' & out & new & Hrun & Hc & Hout & Hfail & Hempty).
  { destruct files as [|af rest].
    - eexists _, [], []. simpl. rewrite app_nil_r.
      split_and!; [reflexivity | done | by left | done | done].
    - rewrite run_nonempty.
      destruct (PodcastMixer.try_body self (af :: rest) crossfade s)
        as [s1 [e|v]] eqn:Hbody;
        apply try_body_run in Hbody as (new & Hc & Hv).
      + eexists _, [], _.
        split_and!; [reflexivity | exact Hc | by left | done | done].
      + eexists s1, v, _. split_and!; [reflexivity | exact Hc | | done | done].
        destruct (Hv v eq_refl) as [->|[-> (mixed & Hex)]]; [by left | right].
        split_and!; [done | apply final_path_isabs |].
        exists mixed. simpl. exact Hex. }
  exists s', out, new. split_and!; [done..| |].
  - intros w1 r af Hmk Hin Hmiss.
    destruct (run_missing self files crossfade s w1 r af Hmk Hin Hmiss)
      as [s'' Hrun'].
    rewrite Hrun in Hrun'. by simplify_eq.
  - intros paths w1 w2 w3 first track segs Hmk Hpresent Hdec Hchain Hexp.
    destruct (run_exports self files paths crossfade s w1 w2 first track segs
                Hmk Hpresent Hdec Hchain)
      as (s'' & checks & Hrun' & Hw & Hchecks & Hc').
    rewrite Hexp in Hrun', Hw. simpl in Hrun', Hw.
    rewrite Hrun in Hrun'. injection Hrun' as <- ->.
    split_and!; [done | apply final_path_nonempty | done |].
    rewrite Hc in Hc'. apply app_inv_head in Hc'. subst new.
    cbn [List.filter is_export].
    rewrite !List.filter_app, (filter_none _ checks),
      (filter_none _ (map Call_from_file paths)); [done| |].
    + apply Forall_forall. intros c Hc0.
      apply list_elem_of_fmap in Hc0 as (p & -> & _). done.
    + by apply queries_no_export.
Qed.

(** C2: the track the mixer exports.  When [makedirs] succeeds, every
    input is present and decodes, and the crossfades succeed, the run
    decodes the files in input order and exports exactly
    [crossfade_chain]: the first segment as it is, every further one with
    200 ms of silence in front, appended with [crossfade] milliseconds.
    The parameter defaults to 50. *)
Theorem mixer_track self (files paths : list str) crossfade s (w1 w2 : W)
    (first track : Audio) (segs : list Audio) :
  os_makedirs (output_dir self) (world s) = (w1, inr tt) →
  Forall2 (present w1) files paths →
  decode_all paths w1 = (w2, inr (first :: segs)) →
  crossfade_chain crossfade first segs = inr track →
  PodcastMixer.crossfade_default = 50%Z
  ∧ ∃ s' checks,
      PodcastMixer._run self files crossfade s
      = (s', inr (match snd (export track (final_path self) final_args w2) with
                  | inl _ => []
                  | inr _ => final_path self
                  end))
      ∧ world s' = fst (export track (final_path self) final_args w2)
      ∧ Forall (λ c, is_query c = true) checks
      ∧ calls s'
        = calls s ++ Call_makedirs (output_dir self) :: checks
          ++ map Call_from_file paths
          ++ [Call_export track (final_path self) final_args].
Proof.
  intros Hmk Hpresent Hdec Hchain. split; [done|].
  destruct paths as [|p0 ps]; [done|].
  apply Forall2_cons_inv_r in Hpresent as (af & rest & Hp0 & Hps & ->).
  rewrite run_nonempty. unfold PodcastMixer.try_body.
  remember (af :: rest) as files eqn:Hfiles.
  unfold bind at 1, makedirs, effect. simpl. rewrite Hmk.
  unfold bind at 1, print. simpl. unfold bind at 1.
  match goal with
  | |- context [validate files [] ?st] =>
      destruct (validate_present files (p0 :: ps) [] st) as [s2 Hval];
      [subst files; by constructor|]; rewrite Hval;
      apply validate_effects in Hval as [Hw (checks & Hc & Hchecks)]
  end.
  simpl in Hw, Hc. rewrite <- app_assoc in Hc. simpl in Hc.
  simpl in Hdec. simpl. unfold bind at 1, ret.
  unfold bind at 1, AudioSegment_from_file, effect. simpl. rewrite Hw.
  destruct (from_file p0 w1) as [w1' [e|a0]]; [done|].
  destruct (decode_all ps w1') as [w2' [e|l]] eqn:Hrest; [done|]. simplify_eq.
  unfold bind at 1, print. simpl. unfold bind at 1.
  match goal with
  | |- context [merge crossfade 0 ps first ?st] =>
      destruct (merge_track crossfade 0 ps first track segs w2 st Hrest Hchain)
        as (s3 & Hmerge & Hw3 & Hc3)
  end.
  rewrite Hmerge. simpl in Hc3. unfold bind at 1, print. simpl.
  unfold bind at 1, AudioSegment_export, effect. simpl.
  fold (final_path self). rewrite Hw3.
  destruct (export track (final_path self) final_args w2) as [w4 [e|[]]];
    simpl; eexists _, checks; (split_and!; [reflexivity | done | done |]);
    simpl; rewrite Hc3, Hc; by repeat (rewrite <- ?app_assoc; simpl).
Qed.

End Mixer.

(** ** The generator *)

Section Generator.
Context `{Platform}.
Import PodcastAudioGenerator.

Implicit Types (self : PodcastAudioGenerator.t) (s : state).

Lemma loop_body_dict self (index : nat) (sp tx : option str)
    (audio_files : list str) s :
  loop_body self index (DictSegment sp tx) audio_files s
  = if bool_decide (stripped sp = []) || bool_decide (stripped tx = []) then
      (State (world s) (calls s)
         (stdout s ++ [lit "Skipping segment " ++ str_of_nat index
                       ++ lit ": missing speaker or text"])
         (tracebacks s), inr audio_files)
    else
      match voice_configs self !! stripped sp with
      | None =>
          (State (world s) (calls s)
             (stdout s ++ [lit "Skipping unknown speaker: " ++ stripped sp])
             (tracebacks s), inr audio_files)
      | Some voice_config =>
          match PodcastAudioGenerator.try_body self index (stripped sp)
                  (stripped tx) voice_config audio_files s with
          | (s1, inl e) => handled index audio_files e s1
          | (s1, inr l) => (s1, inr l)
          end
      end.
Proof.
  unfold loop_body, get_speaker, get_text, stripped, handled.
  unfold bind at 1, ret at 1. unfold bind at 1, ret at 1.
  destruct (_ || _); [done|].
  destruct (voice_configs self !! _) as [vc|]; [|done].
  unfold try_except.
  by destruct (PodcastAudioGenerator.try_body _ _ _ _ _ _ _) as [s1 [e|l]].
Qed.

Lemma loop_body_dialogue self (index : nat) (sp tx : str)
    (audio_files : list str) s :
  loop_body self index (DialogueSegment sp tx) audio_files s
  = (s, inl attribute_error).
Proof. reflexivity. Qed.

(** The calls of one run of the body of the [try]. *)
Lemma try_body_run_gen self (index : nat) (speaker text : str)
    (vc : voice_entry) (audio_files : list str) s s1 r :
  PodcastAudioGenerator.try_body self index speaker text vc audio_files s
  = (s1, r) →
  (∀ l, r = inr l → l = audio_files ++ [filename_of self index speaker])
  ∧ ∃ new, calls s1 = calls s ++ new
      ∧ (normalize (audio_config self) = false →
         Forall (λ c, is_normalize_call c = false) new).
Proof.
  unfold PodcastAudioGenerator.try_body, normalize_pass. intros Hrun.
  unfold bind at 1, convert, effect in Hrun. simpl in Hrun.
  destruct (text_to_speech_convert _ (world s)) as [w1 [e|chunks]].
  { simplify_eq/=. split; [done|]. eexists. split; [done|].
    intros _. by repeat constructor. }
  unfold bind at 1, write_file, effect in Hrun. simpl in Hrun.
  destruct (open_write _ _ w1) as [w2 [e|[]]].
  { simplify_eq/=. split; [done|]. eexists.
    split; [by rewrite <- app_assoc|]. intros _. by repeat constructor. }
  unfold bind at 1 in Hrun.
  destruct (normalize (audio_config self)).
  - unfold bind at 1, AudioSegment_from_file, effect in Hrun. simpl in Hrun.
    destruct (from_file _ w2) as [w3 [e|audio]].
    { simplify_eq/=. split; [done|]. eexists.
      split; [by rewrite <- !app_assoc | done]. }
    unfold AudioSegment_export, effect in Hrun. simpl in Hrun.
    destruct (export _ _ _ w3) as [w4 [e|[]]]; unfold_run; simplify_eq/=.
    + split; [done|]. eexists. split; [by rewrite <- !app_assoc | done].
    + split; [by intros ? [= <-]|]. eexists.
      split; [by rewrite <- !app_assoc | done].
  - unfold_run. simplify_eq/=. split; [by intros ? [= <-]|]. eexists.
    split; [by rewrite <- !app_assoc|]. intros _. by repeat constructor.
Qed.

(** One iteration on a [dict] line never raises; it leaves the list as it
    was or adds the file of the line. *)
Lemma loop_body_dict_run self (index : nat) (sp tx : option str)
    (audio_files : list str) s :
  ∃ s' l new,
    loop_body self index (DictSegment sp tx) audio_files s = (s', inr l)
    ∧ (l = audio_files
       ∨ l = audio_files ++ [filename_of self index (stripped sp)])
    ∧ calls s' = calls s ++ new
    ∧ (normalize (audio_config self) = false →
       Forall (λ c, is_normalize_call c = false) new).
Proof.
  rewrite loop_body_dict. destruct (_ || _).
  { eexists _, _, []. rewrite app_nil_r. split_and!; [done | by left | done..]. }
  destruct (voice_configs self !! _) as [vc|].
  2:{ eexists _, _, []. rewrite app_nil_r.
      split_and!; [done | by left | done..]. }
  destruct (PodcastAudioGenerator.try_body _ _ _ _ _ _ _) as [s1 [e|l]] eqn:Hbody;
    apply try_body_run_gen in Hbody as (Hl & new & Hc & Hnew).
  - eexists _, _, new. split_and!; [done | by left | done..].
  - eexists _, _, new. split_and!; [done | right; by apply Hl | done..].
Qed.

Lemma run_eq self (dialogue : list segment) s :
  PodcastAudioGenerator._run self dialogue s
  = match os_makedirs (output_dir self) (world s) with
    | (w1, inl e) => (after_makedirs (output_dir self) w1 s, inl e)
    | (w1, inr _) =>
        match for_each self 0 dialogue [] (after_makedirs (output_dir self) w1 s) with
        | (s', inl e) => (s', inl e)
        | (s', inr l) => (s', inr (sorted l))
        end
    end.
Proof.
  unfold PodcastAudioGenerator._run, after_makedirs.
  unfold bind at 1, makedirs, effect. simpl.
  destruct (os_makedirs _ _) as [w1 [e|[]]]; [done|].
  unfold bind, ret. by destruct (for_each _ _ _ _ _) as [s' [e|l]].
Qed.

Lemma for_each_cons self (k : nat) (seg : segment) (rest : list segment)
    (acc : list str) s :
  for_each self k (seg :: rest) acc s
  = match loop_body self k seg acc s with
    | (s1, inl e) => (s1, inl e)
    | (s1, inr l) => for_each self (S k) rest l s1
    end.
Proof. reflexivity. Qed.

(** The list the loop builds: the files of lines of increasing index. *)
Lemma for_each_paths self (k : nat) (rest : list segment) (acc : list str)
    s s' (out : list str) :
  for_each self k rest acc s = (s', inr out) →
  ∃ (idxs : list nat) (news : list str),
    out = acc ++ news
    ∧ StronglySorted lt idxs
    ∧ Forall (λ i, k ≤ i) idxs
    ∧ Forall2 (λ i p, ∃ sp tx, rest !! (i - k) = Some (DictSegment sp tx)
                       ∧ p = filename_of self i (stripped sp)) idxs news.
Proof.
  revert k acc s. induction rest as [|seg rest IH]; intros k acc s Hrun.
  - simpl in Hrun. unfold ret in Hrun. simplify_eq.
    exists [], []. rewrite app_nil_r. split_and!; by constructor.
  - rewrite for_each_cons in Hrun. destruct seg as [sp tx|sp tx].
    2:{ by rewrite loop_body_dialogue in Hrun. }
    destruct (loop_body_dict_run self k sp tx acc s)
      as (s1 & l & _ & Hl & Hor & _).
    rewrite Hl in Hrun. apply IH in Hrun as (idxs & news & -> & Hsort & Hge & Hall).
    assert (Forall2 (λ i p, ∃ sp0 tx0,
              (DictSegment sp tx :: rest) !! (i - k) = Some (DictSegment sp0 tx0)
              ∧ p = filename_of self i (stripped sp0)) idxs news) as Hall'.
    { clear -Hge Hall. induction Hall as [|i p idxs news Hi _ IH']; [done|].
      apply Forall_cons in Hge as [Hik Hge]. constructor; [|by apply IH'].
      destruct Hi as (sp0 & tx0 & Hlook & ->). exists sp0, tx0.
      split; [|done]. by replace (i - k) with (S (i - S k)) by lia. }
    destruct Hor as [->| ->].
    + exists idxs, news. split_and!; [done..| |done].
      eapply Forall_impl; [exact Hge|]. simpl. lia.
    + exists (k :: idxs), (filename_of self k (stripped sp) :: news).
      split_and!.
      * by rewrite <- app_assoc.
      * constructor; [done|]. eapply Forall_impl; [exact Hge|]. simpl. lia.
      * constructor; [done|]. eapply Forall_impl; [exact Hge|]. simpl. lia.
      * constructor; [|done]. exists sp, tx. by rewrite Nat.sub_diag.
Qed.

(** On [dict] lines the loop runs to its end. *)
Lemma for_each_dicts self (k : nat) (rest : list segment) (acc : list str) s :
  Forall (λ seg, is_dict seg = true) rest →
  ∃ s' out, for_each self k rest acc s = (s', inr out).
Proof.
  intros Hall. revert k acc s.
  induction Hall as [|seg rest Hseg _ IH]; intros k acc s.
  - by eexists _, _.
  - rewrite for_each_cons. destruct seg as [sp tx|]; [|done].
    destruct (loop_body_dict_run self k sp tx acc s) as (s1 & l & _ & -> & _).
    apply IH.
Qed.

(** A [Dialogue] instance anywhere stops the loop with its
    [AttributeError]. *)
Lemma for_each_raises self (k : nat) (rest : list segment) (acc : list str)
    (sp tx : str) s :
  DialogueSegment sp tx ∈ rest →
  ∃ s', for_each self k rest acc s = (s', inl attribute_error).
Proof.
  revert k acc s. induction rest as [|seg rest IH]; intros k acc s Hin.
  - by apply elem_of_nil in Hin.
  - rewrite for_each_cons. destruct seg as [sp0 tx0|sp0 tx0].
    + destruct (loop_body_dict_run self k sp0 tx0 acc s) as (s1 & l & _ & -> & _).
      apply IH. apply elem_of_cons in Hin as [?|?]; [done|done].
    + rewrite loop_body_dialogue. by eexists.
Qed.

Lemma for_each_calls self (k : nat) (rest : list segment) (acc : list str)
    s s' r :
  for_each self k rest acc s = (s', r) →
  ∃ new, calls s' = calls s ++ new
    ∧ (normalize (audio_config self) = false →
       Forall (λ c, is_normalize_call c = false) new).
Proof.
  revert k acc s. induction rest as [|seg rest IH]; intros k acc s Hrun.
  - simpl in Hrun. unfold ret in Hrun. simplify_eq. exists [].
    by rewrite app_nil_r.
  - rewrite for_each_cons in Hrun. destruct seg as [sp tx|sp tx].
    + destruct (loop_body_dict_run self k sp tx acc s)
        as (s1 & l & new1 & Hl & _ & Hc1 & Hnew1).
      rewrite Hl in Hrun. apply IH in Hrun as (new2 & Hc2 & Hnew2).
      exists (new1 ++ new2). rewrite Hc2, Hc1, <- app_assoc. split; [done|].
      intros Hoff. apply Forall_app. split; [by apply Hnew1 | by apply Hnew2].
    + rewrite loop_body_dialogue in Hrun. simplify_eq. exists [].
      by rewrite app_nil_r.
Qed.

(** *** Diagnostics do not steer the run *)

Lemma same_effects_refl s : same_effects s s.
Proof. done. Qed.

Lemma oblivious_ret {A} (a : A) : oblivious (ret a).
Proof. intros s1 s2 Hs. by split. Qed.

Lemma oblivious_raise {A} (e : exn) : oblivious (raise (A:=A) e).
Proof. intros s1 s2 Hs. by split. Qed.

Lemma oblivious_bind {A B} (m : M A) (k : A → M B) :
  oblivious m → (∀ a, oblivious (k a)) → oblivious (bind m k).
Proof.
  intros Hm Hk s1 s2 Hs. unfold bind. destruct (Hm s1 s2 Hs) as [Hr Hs'].
  destruct (m s1) as [s1' [e|a]], (m s2) as [s2' r2]; simpl in *; subst r2.
  - by split.
  - by apply Hk.
Qed.

Lemma oblivious_try_except {A} (m : M A) (h : exn → M A) :
  oblivious m → (∀ e, oblivious (h e)) → oblivious (try_except m h).
Proof.
  intros Hm Hh s1 s2 Hs. unfold try_except. destruct (Hm s1 s2 Hs) as [Hr Hs'].
  destruct (m s1) as [s1' [e|a]], (m s2) as [s2' r2]; simpl in *; subst r2.
  - by apply Hh.
  - by split.
Qed.

Lemma oblivious_effect {A} (c : call) (op : W → W * (exn + A)) :
  oblivious (effect c op).
Proof.
  intros s1 s2 [Hw Hc]. unfold effect, log, set_world. simpl. rewrite Hw, Hc.
  by destruct (op (world s2)).
Qed.

Lemma oblivious_print (line : str) : oblivious (print line).
Proof. intros s1 s2 [Hw Hc]. by split. Qed.

Lemma oblivious_loop_body self (index : nat) (seg : segment) (acc : list str) :
  oblivious (loop_body self index seg acc).
Proof.
  unfold loop_body. apply oblivious_bind.
  { destruct seg; [apply oblivious_ret | apply oblivious_raise]. }
  intros speaker. apply oblivious_bind.
  { destruct seg; [apply oblivious_ret | apply oblivious_raise]. }
  intros text. destruct (_ || _).
  { apply oblivious_bind; [apply oblivious_print | intros; apply oblivious_ret]. }
  destruct (voice_configs self !! _) as [vc|].
  2:{ apply oblivious_bind; [apply oblivious_print | intros; apply oblivious_ret]. }
  apply oblivious_try_except.
  - unfold PodcastAudioGenerator.try_body, normalize_pass.
    repeat first
      [ apply oblivious_effect | apply oblivious_print | apply oblivious_ret
      | apply oblivious_bind
      | match goal with |- ∀ _, oblivious _ => intro end
      | match goal with |- oblivious (if ?b then _ else _) => destruct b end ].
  - intros e.
    apply oblivious_bind; [apply oblivious_print | intros; apply oblivious_ret].
Qed.

Lemma oblivious_for_each self (k : nat) (rest : list segment) (acc : list str) :
  oblivious (for_each self k rest acc).
Proof.
  revert k acc. induction rest as [|seg rest IH]; intros k acc; simpl.
  - apply oblivious_ret.
  - apply oblivious_bind; [apply oblivious_loop_body | intros; apply IH].
Qed.

Lemma for_each_app self (k : nat) (l1 l2 : list segment) (acc : list str) s :
  for_each self k (l1 ++ l2) acc s
  = match for_each self k l1 acc s with
    | (s1, inl e) => (s1, inl e)
    | (s1, inr l) => for_each self (k + length l1) l2 l s1
    end.
Proof.
  revert k acc s. induction l1 as [|seg l1 IH]; intros k acc s.
  - simpl. unfold ret. by rewrite Nat.add_0_r.
  - rewrite <- app_comm_cons, !for_each_cons.
    destruct (loop_body self k seg acc s) as [s1 [e|l]]; [done|].
    rewrite IH. simpl. by replace (k + S (length l1)) with (S k + length l1) by lia.
Qed.

Lemma loop_body_skipped self (index : nat) (seg : segment) (acc : list str) s :
  skipped self seg →
  ∃ s', loop_body self index seg acc s = (s', inr acc) ∧ same_effects s' s.
Proof.
  destruct seg as [sp tx|]; [|done]. intros Hskip. rewrite loop_body_dict.
  destruct (decide (stripped sp = [])) as [Hsp|Hsp].
  { rewrite (bool_decide_eq_true_2 _ Hsp). simpl. by eexists. }
  destruct (decide (stripped tx = [])) as [Htx|Htx].
  { rewrite (bool_decide_eq_true_2 _ Htx), orb_true_r. by eexists. }
  destruct Hskip as [?|[?|Hnone]]; [done..|].
  rewrite Hnone. destruct (_ || _); by eexists.
Qed.

(** *** The run against the script's effect *)

Lemma loop_body_refines self (k : nat) (sp tx : option str) (acc : list str) s
    (w' : W) (cs : list call) (o : option (nat * str)) :
  line_effect self k (DictSegment sp tx) (world s) = (w', cs, o) →
  ∃ s', loop_body self k (DictSegment sp tx) acc s
        = (s', inr (acc ++ map snd (option_list o)))
    ∧ world s' = w' ∧ calls s' = calls s ++ cs.
Proof.
  rewrite loop_body_dict. unfold line_effect.
  unfold PodcastAudioGenerator.try_body, normalize_pass, handled.
  destruct (_ || _); [|destruct (voice_configs self !! _) as [vc|]].
  1,3: intros [= <- <- <-]; simpl; rewrite (app_nil_r acc); eexists;
    (split_and!; [reflexivity | reflexivity | by rewrite app_nil_r]).
  unfold bind at 1, convert, effect. simpl.
  destruct (text_to_speech_convert _ (world s)) as [w1 [e|chunks]].
  { intros [= <- <- <-]. simpl. rewrite (app_nil_r acc). eexists.
    split_and!; [reflexivity | reflexivity | done]. }
  unfold bind at 1, write_file, effect. simpl.
  destruct (open_write _ _ w1) as [w2 [e|[]]].
  { intros [= <- <- <-]. simpl. rewrite (app_nil_r acc). eexists.
    split_and!; [reflexivity | reflexivity |]. simpl. by rewrite <- app_assoc. }
  unfold bind at 1.
  destruct (normalize (audio_config self)).
  - unfold bind at 1, AudioSegment_from_file, effect. simpl.
    destruct (from_file _ w2) as [w3 [e|audio]].
    { intros [= <- <- <-]. simpl. rewrite (app_nil_r acc). eexists.
      split_and!; [reflexivity | reflexivity |].
      simpl. by repeat (rewrite <- ?app_assoc; simpl). }
    unfold AudioSegment_export, effect. simpl.
    destruct (export _ _ _ w3) as [w4 [e|[]]]; intros [= <- <- <-];
      unfold_run; simpl; rewrite ?(app_nil_r acc); eexists;
      (split_and!; [reflexivity | reflexivity |]);
      simpl; by repeat (rewrite <- ?app_assoc; simpl).
  - intros [= <- <- <-]. unfold_run. simpl. eexists.
    split_and!; [reflexivity | reflexivity |].
    simpl. by repeat (rewrite <- ?app_assoc; simpl).
Qed.

Lemma for_each_refines self (k : nat) (rest : list segment) (acc : list str) s
    (w' : W) (cs : list call) (out : list (nat * str)) :
  Forall (λ seg, is_dict seg = true) rest →
  script_effect self k rest (world s) = (w', cs, out) →
  ∃ s', for_each self k rest acc s = (s', inr (acc ++ map snd out))
    ∧ world s' = w' ∧ calls s' = calls s ++ cs.
Proof.
  intros Hall. revert k acc s w' cs out.
  induction Hall as [|seg rest Hseg _ IH]; intros k acc s w' cs out Heff.
  - simpl in Heff. simplify_eq. eexists. rewrite !app_nil_r.
    by split_and!.
  - destruct seg as [sp tx|]; [|done]. cbn [script_effect] in Heff.
    destruct (line_effect self k (DictSegment sp tx) (world s))
      as [[w1 cs1] o1] eqn:Hline.
    destruct (script_effect self (S k) rest w1) as [[w2 cs2] o2] eqn:Hrest.
    simplify_eq. rewrite for_each_cons.
    destruct (loop_body_refines self k sp tx acc s _ _ _ Hline)
      as (s1 & -> & Hw1 & Hc1).
    rewrite <- Hw1 in Hrest.
    destruct (IH (S k) (acc ++ map snd (option_list o1)) s1 _ _ _ Hrest)
      as (s' & -> & Hw & Hc).
    exists s'. rewrite map_app, Hc, Hc1, <- !app_assoc. by split_and!.
Qed.

Lemma run_refines self (dialogue : list segment) s (w1 w' : W)
    (cs : list call) (out : list (nat * str)) :
  Forall (λ seg, is_dict seg = true) dialogue →
  os_makedirs (output_dir self) (world s) = (w1, inr tt) →
  script_effect self 0 dialogue w1 = (w', cs, out) →
  ∃ s', PodcastAudioGenerator._run self dialogue s
        = (s', inr (sorted (map snd out)))
    ∧ world s' = w'
    ∧ calls s' = calls s ++ Call_makedirs (output_dir self) :: cs.
Proof.
  intros Hall Hmk Heff. rewrite run_eq, Hmk.
  destruct (for_each_refines self 0 dialogue []
              (after_makedirs (output_dir self) w1 s) _ _ _ Hall Heff)
    as (s' & -> & Hw & Hc).
  exists s'. simpl in Hc. rewrite Hc, <- app_assoc. by split_and!.
Qed.

Lemma script_effect_app self (k : nat) (l1 l2 : list segment) (w : W) :
  script_effect self k (l1 ++ l2) w
  = let '(w1, c1, o1) := script_effect self k l1 w in
    let '(w2, c2, o2) := script_effect self (k + length l1) l2 w1 in
    (w2, c1 ++ c2, o1 ++ o2).
Proof.
  revert k w. induction l1 as [|seg l1 IH]; intros k w.
  - simpl. rewrite Nat.add_0_r. by destruct (script_effect self k l2 w) as [[? ?] ?].
  - rewrite <- app_comm_cons. cbn [script_effect].
    destruct (line_effect self k seg w) as [[w1 cs1] o1].
    rewrite IH. destruct (script_effect self (S k) l1 w1) as [[w2 cs2] o2].
    replace (k + length (seg :: l1)) with (S k + length l1) by (simpl; lia).
    destruct (script_effect self (S k + length l1) l2 w2) as [[w3 cs3] o3].
    by rewrite <- !app_assoc.
Qed.

Lemma line_effect_file self (k : nat) (seg : segment) (w w' : W)
    (cs : list call) (i : nat) (p : str) :
  line_effect self k seg w = (w', cs, Some (i, p)) →
  i = k ∧ ∃ sp tx, seg = DictSegment sp tx
                   ∧ p = filename_of self k (stripped sp).
Proof.
  unfold line_effect. destruct seg as [sp tx|]; [|done].
  destruct (_ || _); [done|].
  destruct (voice_configs self !! _) as [vc|]; [|done].
  destruct (text_to_speech_convert _ w) as [w1 [e|chunks]]; [done|].
  destruct (open_write _ _ w1) as [w2 [e|[]]]; [done|].
  destruct (normalize (audio_config self)).
  - destruct (from_file _ w2) as [w3 [e|audio]]; [done|].
    destruct (export _ _ _ w3) as [w4 [e|[]]]; [done|].
    intros [= <- <- <- <-]. split; [done|]. by exists sp, tx.
  - intros [= <- <- <- <-]. split; [done|]. by exists sp, tx.
Qed.

(** The files of a script: lines of increasing index, each with its own
    file, whose ordinal prefix is the index. *)
Lemma script_effect_files self (dialogue : list segment) (k : nat) (w w' : W)
    (cs : list call) (out : list (nat * str)) :
  script_effect self k dialogue w = (w', cs, out) →
  StronglySorted lt (map fst out)
  ∧ Forall (λ ip, k ≤ ip.1 < k + length dialogue
                  ∧ ordinal_prefix (output_dir self) ip.2 = Some ip.1
                  ∧ ∃ sp tx, dialogue !! (ip.1 - k) = Some (DictSegment sp tx)
                      ∧ ip.2 = filename_of self ip.1 (stripped sp)) out.
Proof.
  revert k w w' cs out.
  induction dialogue as [|seg rest IH]; intros k w w' cs out Heff.
  - simpl in Heff. simplify_eq. split; constructor.
  - cbn [script_effect] in Heff.
    destruct (line_effect self k seg w) as [[w1 cs1] o1] eqn:Hline.
    destruct (script_effect self (S k) rest w1) as [[w2 cs2] o2] eqn:Hrest.
    simplify_eq. apply IH in Hrest as [Hsort Hall].
    assert (Forall (λ ip, k ≤ ip.1 < k + length (seg :: rest)
                          ∧ ordinal_prefix (output_dir self) ip.2 = Some ip.1
                          ∧ ∃ sp tx, (seg :: rest) !! (ip.1 - k)
                                     = Some (DictSegment sp tx)
                              ∧ ip.2 = filename_of self ip.1 (stripped sp)) o2)
      as Hall'.
    { eapply Forall_impl; [exact Hall|]. intros [i p]. simpl.
      intros (Hi & Hord & sp & tx & Hlook & Hp). split_and!; [lia..|done|].
      exists sp, tx. split; [|done].
      by replace (i - k) with (S (i - S k)) by lia. }
    destruct o1 as [[i p]|]; simpl; [|done].
    apply line_effect_file in Hline as (-> & sp & tx & -> & ->).
    split.
    + constructor; [done|]. apply Forall_fmap.
      eapply Forall_impl; [exact Hall|]. intros [j q]. simpl. lia.
    + constructor; [|done]. simpl. split_and!; [lia..| |].
      * apply ordinal_prefix_filename.
      * exists sp, tx. by rewrite Nat.sub_diag.
Qed.

Lemma script_effect_middle self (l1 l2 : list segment) (seg : segment)
    (w w' : W) (cs : list call) (out : list (nat * str)) (p : str) :
  script_effect self 0 (l1 ++ seg :: l2) w = (w', cs, out) →
  (length l1, p) ∈ out
  ↔ (line_effect self (length l1) seg (script_effect self 0 l1 w).1.1).2
    = Some (length l1, p).
Proof.
  rewrite script_effect_app.
  destruct (script_effect self 0 l1 w) as [[wb cb] ob] eqn:Hb.
  cbn [script_effect Nat.add fst snd].
  destruct (line_effect self (length l1) seg wb) as [[w2 c2] o2] eqn:Hl.
  destruct (script_effect self (S (length l1)) l2 w2) as [[w3 c3] o3] eqn:Ha.
  intros [= <- <- <-]. cbn [snd].
  apply script_effect_files in Hb as [_ Hb].
  apply script_effect_files in Ha as [_ Ha].
  rewrite Forall_forall in Hb. rewrite Forall_forall in Ha.
  rewrite !elem_of_app. split.
  - intros [Hin|[Hin|Hin]].
    + destruct (Hb _ Hin) as (Hi & _). simpl in Hi. lia.
    + destruct o2 as [ip|]; simpl in Hin.
      * apply list_elem_of_singleton in Hin. by subst ip.
      * by apply elem_of_nil in Hin.
    + destruct (Ha _ Hin) as (Hi & _). simpl in Hi. lia.
  - intros ->. right. left. simpl. by apply list_elem_of_singleton.
Qed.

(** The lines a script lists are the lines that produce a file. *)
Lemma script_effect_produces self (dialogue : list segment) (w1 w' : W)
    (cs : list call) (out : list (nat * str)) (i : nat) (p : str) :
  script_effect self 0 dialogue w1 = (w', cs, out) →
  (i, p) ∈ out ↔ produces self dialogue w1 i p.
Proof.
  intros Heff.
  assert (∀ seg, dialogue !! i = Some seg →
            (i, p) ∈ out
            ↔ (line_effect self i seg
                 (script_effect self 0 (take i dialogue) w1).1.1).2
              = Some (i, p)) as Hmid.
  { intros seg Hseg.
    pose proof (take_drop_middle _ _ _ Hseg) as Hsplit.
    rewrite <- Hsplit in Heff.
    apply (script_effect_middle _ _ _ _ _ _ _ _ p) in Heff.
    apply lookup_lt_Some in Hseg.
    by rewrite length_take, Nat.min_l in Heff by lia. }
  split.
  - intros Hin.
    pose proof (script_effect_files _ _ _ _ _ _ _ Heff) as [_ Hfiles].
    rewrite Forall_forall in Hfiles.
    destruct (Hfiles _ Hin) as (Hi & _). simpl in Hi.
    destruct (lookup_lt_is_Some_2 dialogue i) as [seg Hseg]; [lia|].
    exists seg. split; [done|]. by apply Hmid.
  - intros (seg & Hseg & Hline). by apply (Hmid seg).
Qed.

(** A run on a script seen as the lines before a line, the line, and the
    lines after it. *)
Lemma run_around_line self (before after : list segment) (seg : segment) s
    (w1 wb w2 w3 : W) (cb c2 c3 : list call) (ob o3 : list (nat * str))
    (o2 : option (nat * str)) :
  Forall (λ seg, is_dict seg = true) (before ++ seg :: after) →
  os_makedirs (output_dir self) (world s) = (w1, inr tt) →
  script_effect self 0 before w1 = (wb, cb, ob) →
  line_effect self (length before) seg wb = (w2, c2, o2) →
  script_effect self (S (length before)) after w2 = (w3, c3, o3) →
  ∃ s', PodcastAudioGenerator._run self (before ++ seg :: after) s
        = (s', inr (sorted (map snd (ob ++ option_list o2 ++ o3))))
    ∧ world s' = w3
    ∧ calls s' = calls s ++ Call_makedirs (output_dir self) :: cb ++ c2 ++ c3.
Proof.
  intros Hall Hmk Hb Hl Ha. apply (run_refines _ _ _ w1); [done..|].
  rewrite script_effect_app, Hb. cbn [script_effect Nat.add].
  by rewrite Hl, Ha.
Qed.

Lemma line_effect_skipped self (k : nat) (seg : segment) (w : W) :
  skipped self seg → line_effect self k seg w = (w, [], None).
Proof.
  destruct seg as [sp tx|]; [|done]. unfold line_effect. simpl.
  intros [Hsp|[Htx|Hvc]].
  - by rewrite (bool_decide_eq_true_2 _ Hsp).
  - rewrite (bool_decide_eq_true_2 _ Htx). by rewrite orb_true_r.
  - rewrite Hvc. by destruct (_ || _).
Qed.

Lemma skipped_is_dict self (seg : segment) :
  skipped self seg → is_dict seg = true.
Proof. by destruct seg. Qed.

(** C7: a line the guards skip.  If the speaker or the text of a line is
    empty after [strip], or no voice is registered for its speaker, its
    iteration makes no external call (so it writes no file), leaves the
    world and the list of produced files as they were, and a run on a
    script that contains the line returns the same list and makes the
    same calls as the run on the script with an empty line in its
    place.  The lines around it are processed as if it were not there:
    the lines after it start from the world the lines before it left,
    keep their own indices, and the run returns the files of both groups
    and no file with the ordinal of the skipped line. *)
Theorem generator_skips_line self (index : nat) (seg : segment)
    (audio_files : list str) s :
  skipped self seg →
  (∃ s', loop_body self index seg audio_files s = (s', inr audio_files)
     ∧ same_effects s' s)
  ∧ (∀ (before after : list segment) s0,
       let r1 := PodcastAudioGenerator._run self (before ++ seg :: after) s0 in
       let r2 := PodcastAudioGenerator._run self
                   (before ++ DictSegment None None :: after) s0 in
       snd r1 = snd r2 ∧ same_effects (fst r1) (fst r2))
  ∧ (∀ (before after : list segment) s0 (w1 wb w3 : W)
       (cb c3 : list call) (ob o3 : list (nat * str)),
       Forall (λ seg, is_dict seg = true) before →
       Forall (λ seg, is_dict seg = true) after →
       os_makedirs (output_dir self) (world s0) = (w1, inr tt) →
       script_effect self 0 before w1 = (wb, cb, ob) →
       script_effect self (S (length before)) after wb = (w3, c3, o3) →
       ∃ s', PodcastAudioGenerator._run self (before ++ seg :: after) s0
             = (s', inr (sorted (map snd (ob ++ o3))))
         ∧ world s' = w3
         ∧ calls s' = calls s0 ++ Call_makedirs (output_dir self) :: cb ++ c3
         ∧ Forall (λ p, ordinal_prefix (output_dir self) p
                        ≠ Some (length before)) (sorted (map snd (ob ++ o3)))).
Proof.
  intros Hskip. split_and!; [by apply loop_body_skipped| |].
  - intros before after s0. simpl. rewrite !run_eq.
    destruct (os_makedirs _ _) as [w1 [e|[]]]; [done|].
    rewrite !for_each_app.
    destruct (for_each self 0 before [] _) as [s1 [e|l]]; [done|].
    rewrite !for_each_cons.
    destruct (loop_body_skipped self (0 + length before) seg l s1 Hskip)
      as (s2 & -> & Hs2).
    destruct (loop_body_skipped self (0 + length before) (DictSegment None None)
                l s1) as (s3 & -> & Hs3); [by left|].
    assert (same_effects s2 s3) as Hs.
    { destruct Hs2 as [Hw2 Hc2], Hs3 as [Hw3 Hc3]. split; congruence. }
    destruct (oblivious_for_each self (S (0 + length before)) after l s2 s3 Hs)
      as [Hr Hs'].
    destruct (for_each _ _ after l s2) as [s2' [e|l2]],
             (for_each _ _ after l s3) as [s3' r3]; simpl in *; by subst r3.
  - intros before after s0 w1 wb w3 cb c3 ob o3 Hb Ha Hmk Hbefore Hafter.
    destruct (run_around_line self before after seg s0 w1 wb wb w3 cb [] c3
                ob o3 None) as (s' & Hrun & Hw & Hc); [|done..| |done|].
    { apply Forall_app. split; [done|]. constructor; [|done].
      by eapply skipped_is_dict. }
    { by apply line_effect_skipped. }
    exists s'. split_and!; [done..|].
    apply script_effect_files in Hbefore as [_ Hbefore].
    apply script_effect_files in Hafter as [_ Hafter].
    apply Forall_forall. intros p Hp.
    apply (elem_of_Permutation_proper _ _ _
             (sorted_perm (map snd (ob ++ o3)))) in Hp.
    apply list_elem_of_fmap in Hp as ([i q] & -> & Hin). simpl.
    apply elem_of_app in Hin as [Hin|Hin].
    + rewrite Forall_forall in Hbefore.
      destruct (Hbefore _ Hin) as (Hi & Hord & _). simpl in Hi, Hord.
      rewrite Hord. intros [= ->]. lia.
    + rewrite Forall_forall in Hafter.
      destruct (Hafter _ Hin) as (Hi & Hord & _). simpl in Hi, Hord.
      rewrite Hord. intros [= ->]. lia.
Qed.

(** C9: the tolerance needs [dict] elements.  The fields are read with
    [.get] before the [try]: once [makedirs] has succeeded, [_run] returns
    a list exactly when every element of the dialogue is a [dict], and a
    single instance of the [Dialogue] model anywhere makes the whole call
    raise [AttributeError], whatever the other lines are. *)
Theorem generator_requires_dicts self (dialogue : list segment) s (w1 : W) :
  os_makedirs (output_dir self) (world s) = (w1, inr tt) →
  ((∃ s' paths, PodcastAudioGenerator._run self dialogue s = (s', inr paths))
   ↔ Forall (λ seg, is_dict seg = true) dialogue)
  ∧ (∀ sp tx, DialogueSegment sp tx ∈ dialogue →
       ∃ s', PodcastAudioGenerator._run self dialogue s
             = (s', inl attribute_error)).
Proof.
  intros Hmk.
  assert (∀ sp tx, DialogueSegment sp tx ∈ dialogue →
            ∃ s', PodcastAudioGenerator._run self dialogue s
                  = (s', inl attribute_error)) as Hraise.
  { intros sp tx Hin. rewrite run_eq, Hmk.
    destruct (for_each_raises self 0 dialogue [] sp tx
                (after_makedirs (output_dir self) w1 s) Hin) as [s' ->].
    by eexists. }
  split; [split|done].
  - intros (s' & paths & Hrun). apply Forall_forall. intros [sp tx|sp tx] Hin.
    + done.
    + destruct (Hraise sp tx Hin) as [s'' Hrun']. congruence.
  - intros Hall. rewrite run_eq, Hmk.
    destruct (for_each_dicts self 0 dialogue []
                (after_makedirs (output_dir self) w1 s) Hall) as (s' & out & ->).
    by eexists _, _.
Qed.

(** *** What the returned paths are *)

Lemma try_body_written self (index : nat) (speaker text : str)
    (vc : voice_entry) (acc : list str) s s1 (l : list str) :
  PodcastAudioGenerator.try_body self index speaker text vc acc s = (s1, inr l) →
  ∃ new data, calls s1 = calls s ++ new
    ∧ Call_write (filename_of self index speaker) data ∈ new.
Proof.
  unfold PodcastAudioGenerator.try_body, normalize_pass. intros Hrun.
  unfold bind at 1, convert, effect in Hrun. simpl in Hrun.
  destruct (text_to_speech_convert _ (world s)) as [w1 [e|chunks]]; [done|].
  unfold bind at 1, write_file, effect in Hrun. simpl in Hrun.
  destruct (open_write _ _ w1) as [w2 [e|[]]]; [done|].
  unfold bind at 1 in Hrun.
  destruct (normalize (audio_config self)).
  - unfold bind at 1, AudioSegment_from_file, effect in Hrun. simpl in Hrun.
    destruct (from_file _ w2) as [w3 [e|audio]]; [done|].
    unfold AudioSegment_export, effect in Hrun. simpl in Hrun.
    destruct (export _ _ _ w3) as [w4 [e|[]]]; unfold_run; simplify_eq/=.
    eexists _, (join_bytes chunks). rewrite <- !app_assoc. split; [done|].
    rewrite !elem_of_app, !list_elem_of_singleton. tauto.
  - unfold_run. simplify_eq/=.
    eexists _, (join_bytes chunks). rewrite <- !app_assoc. split; [done|].
    rewrite !elem_of_app, !list_elem_of_singleton. tauto.
Qed.

Lemma for_each_written self (k : nat) (rest : list segment) (acc : list str)
    s s' (out : list str) :
  for_each self k rest acc s = (s', inr out) →
  ∃ new, calls s' = calls s ++ new
    ∧ Forall (λ p, p ∈ acc ∨ ∃ data, Call_write p data ∈ new) out.
Proof.
  revert k acc s. induction rest as [|seg rest IH]; intros k acc s Hrun.
  - simpl in Hrun. unfold ret in Hrun. simplify_eq. exists [].
    rewrite app_nil_r. split; [done|]. apply Forall_forall. by left.
  - rewrite for_each_cons in Hrun. destruct seg as [sp tx|sp tx].
    2:{ by rewrite loop_body_dialogue in Hrun. }
    destruct (loop_body self k (DictSegment sp tx) acc s) as [s1 [e|l]] eqn:Hbody;
      [done|].
    apply IH in Hrun as (new2 & Hc2 & Hout).
    assert (∃ new1, calls s1 = calls s ++ new1
              ∧ Forall (λ p, p ∈ acc ∨ ∃ data, Call_write p data ∈ new1) l)
      as (new1 & Hc1 & Hl).
    { rewrite loop_body_dict in Hbody.
      assert (∀ st, calls st = calls s →
                ∃ new1, calls st = calls s ++ new1
                  ∧ Forall (λ p, p ∈ acc ∨ ∃ data, Call_write p data ∈ new1) acc)
        as Hsame.
      { intros st Hst. exists []. rewrite app_nil_r. split; [done|].
        apply Forall_forall. by left. }
      destruct (_ || _); [simplify_eq; by apply Hsame|].
      destruct (voice_configs self !! _) as [vc|]; [|simplify_eq; by apply Hsame].
      destruct (PodcastAudioGenerator.try_body _ _ _ _ _ _ _)
        as [s2 [e|l2]] eqn:Htry.
      - unfold handled in Hbody. simplify_eq. simpl.
        apply try_body_run_gen in Htry as [_ (new1 & Hc1 & _)].
        exists new1. split; [done|]. apply Forall_forall. by left.
      - simplify_eq.
        pose proof (try_body_written _ _ _ _ _ _ _ _ _ Htry)
          as (new1 & data & Hc1 & Hdata).
        apply try_body_run_gen in Htry as [Hl _]. rewrite (Hl _ eq_refl).
        exists new1. split; [done|]. apply Forall_app. split.
        + apply Forall_forall. by left.
        + constructor; [|done]. right. by exists data. }
    exists (new1 ++ new2). rewrite Hc2, Hc1, <- app_assoc. split; [done|].
    eapply Forall_impl; [exact Hout|]. intros p [Hp|(data & Hdata)]; simpl.
    + rewrite Forall_forall in Hl. destruct (Hl p Hp) as [?|(data & Hdata)];
        [by left|]. right. exists data. apply elem_of_app. by left.
    + right. exists data. apply elem_of_app. by right.
Qed.

Lemma file_of_line_intro self (dialogue : list segment) (i : nat)
    (sp tx : option str) :
  dialogue !! i = Some (DictSegment sp tx) →
  file_of_line self dialogue i (filename_of self i (stripped sp)).
Proof.
  intros Hi. exists sp, tx. split_and!; [done..|].
  apply ordinal_prefix_filename.
Qed.

Lemma for_each_files self (dialogue : list segment) s s' (out : list str) :
  for_each self 0 dialogue [] s = (s', inr out) →
  ∃ idxs, StronglySorted lt idxs ∧ Forall2 (file_of_line self dialogue) idxs out.
Proof.
  intros Hrun. apply for_each_paths in Hrun as (idxs & news & -> & Hsort & _ & Hall).
  exists idxs. split; [done|]. simpl.
  eapply Forall2_impl; [exact Hall|]. intros i p (sp & tx & Hi & ->).
  rewrite Nat.sub_0_r in Hi. by eapply file_of_line_intro.
Qed.

(** Below a thousand lines, files of lines of increasing index are in
    ascending order. *)
Lemma files_ascending self (dialogue : list segment) (idxs : list nat)
    (paths : list str) :
  length dialogue ≤ 1000 →
  StronglySorted lt idxs →
  Forall2 (file_of_line self dialogue) idxs paths →
  Sorted str_le paths.
Proof.
  intros Hlen Hsort Hall. apply StronglySorted_Sorted.
  induction Hall as [|i p idxs paths Hi Hall IH]; [constructor|].
  apply StronglySorted_inv in Hsort as [Hsort Hlt].
  constructor; [by apply IH|].
  clear IH Hsort. induction Hall as [|j q idxs paths Hj _ IH]; [constructor|].
  apply Forall_cons in Hlt as [Hij Hlt]. constructor; [|by apply IH].
  destruct Hi as (sp1 & tx1 & _ & -> & _), Hj as (sp2 & tx2 & Hj & -> & _).
  apply lookup_lt_Some in Hj. apply filename_of_mono; lia.
Qed.

(** C1, as the code has it: for a dialogue of at most 1000 lines, the
    list [_run] returns lists, in script order, exactly the lines that
    produced a file: line [i] is listed when it passes the guards and its
    synthesis, write and normalization succeed in the world the lines
    before it left.  The path of line [i] is
    [{output_dir}/{i:03d}_{speaker}.{format}], so its ordinal prefix is
    [i], and the indices are strictly increasing (lines that produce no
    file leave gaps).  From line 1000 on the ordinal has four digits and
    the ascending order of the names is no longer the order of the
    lines. *)
Theorem generator_paths_in_script_order self (dialogue : list segment) s
    (w1 w' : W) (cs : list call) (out : list (nat * str)) :
  length dialogue ≤ 1000 →
  Forall (λ seg, is_dict seg = true) dialogue →
  os_makedirs (output_dir self) (world s) = (w1, inr tt) →
  script_effect self 0 dialogue w1 = (w', cs, out) →
  ∃ s', PodcastAudioGenerator._run self dialogue s = (s', inr (map snd out))
    ∧ (∀ i p, (i, p) ∈ out ↔ produces self dialogue w1 i p)
    ∧ StronglySorted lt (map fst out)
    ∧ Forall (λ ip, ordinal_prefix (output_dir self) ip.2 = Some ip.1
                    ∧ file_of_line self dialogue ip.1 ip.2) out
    ∧ in_script_order self dialogue (map snd out).
Proof.
  intros Hlen Hall Hmk Heff.
  destruct (run_refines self dialogue s w1 w' cs out Hall Hmk Heff)
    as (s' & Hrun & _ & _).
  pose proof (script_effect_files _ _ _ _ _ _ _ Heff) as [Hsort Hfiles].
  assert (Forall (λ ip, ordinal_prefix (output_dir self) ip.2 = Some ip.1
                        ∧ file_of_line self dialogue ip.1 ip.2) out) as Hout.
  { eapply Forall_impl; [exact Hfiles|]. intros [i p]. simpl.
    intros (_ & Hord & sp & tx & Hlook & ->). split; [done|].
    rewrite Nat.sub_0_r in Hlook. by eapply file_of_line_intro. }
  assert (Forall2 (file_of_line self dialogue) (map fst out) (map snd out))
    as Hlines.
  { clear -Hout. induction Hout as [|[i p] out [_ Hip] _ IH]; simpl;
      by constructor. }
  pose proof (files_ascending _ _ _ _ Hlen Hsort Hlines) as Hasc.
  rewrite (sorted_of_sorted _ Hasc) in Hrun.
  exists s'. split_and!; [done| |done..|].
  - intros i p. by apply (script_effect_produces self dialogue w1 w' cs out).
  - split; [done|]. by exists (map fst out).
Qed.

Lemma loop_body_failure self (index : nat) (sp tx : option str)
    (vc : voice_entry) (audio_files : list str) st s1 e :
  stripped sp ≠ [] → stripped tx ≠ [] →
  voice_configs self !! stripped sp = Some vc →
  PodcastAudioGenerator.try_body self index (stripped sp) (stripped tx) vc
    audio_files st = (s1, inl e) →
  ∃ s2, loop_body self index (DictSegment sp tx) audio_files st
        = (s2, inr audio_files)
    ∧ same_effects s2 s1.
Proof.
  intros Hsp Htx Hvc Hbody. rewrite loop_body_dict, Hvc, Hbody.
  rewrite (bool_decide_eq_false_2 _ Hsp), (bool_decide_eq_false_2 _ Htx).
  by eexists.
Qed.

(** A line whose [try] body raises has the effect of a line that produces
    no file. *)
Lemma line_effect_failure self (index : nat) (sp tx : option str)
    (vc : voice_entry) (audio_files : list str) st s1 e :
  stripped sp ≠ [] → stripped tx ≠ [] →
  voice_configs self !! stripped sp = Some vc →
  PodcastAudioGenerator.try_body self index (stripped sp) (stripped tx) vc
    audio_files st = (s1, inl e) →
  ∃ c2, line_effect self index (DictSegment sp tx) (world st)
        = (world s1, c2, None)
    ∧ calls s1 = calls st ++ c2.
Proof.
  intros Hsp Htx Hvc Hbody.
  destruct (loop_body_failure _ _ _ _ _ _ _ _ _ Hsp Htx Hvc Hbody)
    as (s2 & Hloop & Hw & Hc).
  destruct (line_effect self index (DictSegment sp tx) (world st))
    as [[w2 c2] o2] eqn:Hline.
  destruct (loop_body_refines self index sp tx audio_files st _ _ _ Hline)
    as (s' & Hloop' & Hw' & Hc').
  rewrite Hloop in Hloop'. injection Hloop' as <- Hfiles. exists c2.
  split; [|congruence]. rewrite <- Hw, Hw'. f_equal.
  destruct o2 as [ip|]; [|done].
  apply (f_equal length) in Hfiles.
  rewrite length_app in Hfiles. simpl in Hfiles. lia.
Qed.

(** C4: a failing line is dropped and the batch goes on.  When the body
    of the [try] raises for a line (synthesis, write, decode or export),
    the iteration ends normally with the list of files unchanged.  The
    run as a whole raises only for what lies outside the [try]: a failing
    [makedirs], or an element without [.get].  Otherwise it returns an
    ascending list, each path of which is the file of a line of the
    dialogue and was written by a call of the run; the list holds
    exactly the files of the lines that produced one.  A run in which the
    body raises for a line goes on with the next line, in the world the
    failure left, and returns the files the other lines produced. *)
Theorem generator_line_failure_is_skipped self (dialogue : list segment) s :
  (∀ (index : nat) (sp tx : option str) (vc : voice_entry)
     (audio_files : list str) st s1 e,
     stripped sp ≠ [] → stripped tx ≠ [] →
     voice_configs self !! stripped sp = Some vc →
     PodcastAudioGenerator.try_body self index (stripped sp) (stripped tx) vc
       audio_files st = (s1, inl e) →
     ∃ s2, loop_body self index (DictSegment sp tx) audio_files st
           = (s2, inr audio_files)
       ∧ same_effects s2 s1)
  ∧ (∀ s' e, PodcastAudioGenerator._run self dialogue s = (s', inl e) →
       (∃ w1, os_makedirs (output_dir self) (world s) = (w1, inl e))
       ∨ (e = attribute_error ∧ ∃ sp tx, DialogueSegment sp tx ∈ dialogue))
  ∧ (∀ s' paths, PodcastAudioGenerator._run self dialogue s = (s', inr paths) →
       ∃ new, calls s' = calls s ++ new
         ∧ Sorted str_le paths
         ∧ Forall (λ p, (∃ i, file_of_line self dialogue i p)
                        ∧ ∃ data, Call_write p data ∈ new) paths)
  ∧ (∀ (w1 w' : W) (cs : list call) (out : list (nat * str)),
       Forall (λ seg, is_dict seg = true) dialogue →
       os_makedirs (output_dir self) (world s) = (w1, inr tt) →
       script_effect self 0 dialogue w1 = (w', cs, out) →
       ∃ s', PodcastAudioGenerator._run self dialogue s
             = (s', inr (sorted (map snd out)))
         ∧ world s' = w'
         ∧ calls s' = calls s ++ Call_makedirs (output_dir self) :: cs
         ∧ ∀ i p, (i, p) ∈ out ↔ produces self dialogue w1 i p)
  ∧ (∀ (before after : list segment) (sp tx : option str) (vc : voice_entry)
       (w1 w3 : W) (cb c3 : list call) (ob o3 : list (nat * str))
       (audio_files : list str) st s1 e,
       dialogue = before ++ DictSegment sp tx :: after →
       Forall (λ seg, is_dict seg = true) before →
       Forall (λ seg, is_dict seg = true) after →
       os_makedirs (output_dir self) (world s) = (w1, inr tt) →
       script_effect self 0 before w1 = (world st, cb, ob) →
       stripped sp ≠ [] → stripped tx ≠ [] →
       voice_configs self !! stripped sp = Some vc →
       PodcastAudioGenerator.try_body self (length before) (stripped sp)
         (stripped tx) vc audio_files st = (s1, inl e) →
       script_effect self (S (length before)) after (world s1) = (w3, c3, o3) →
       ∃ s' c2, PodcastAudioGenerator._run self dialogue s
                = (s', inr (sorted (map snd (ob ++ o3))))
         ∧ world s' = w3
         ∧ calls s1 = calls st ++ c2
         ∧ calls s' = calls s ++ Call_makedirs (output_dir self)
                                 :: cb ++ c2 ++ c3).
Proof.
  split_and!.
  - intros index sp tx vc acc st s1 e. apply loop_body_failure.
  - intros s' e Hrun. rewrite run_eq in Hrun.
    destruct (os_makedirs _ _) as [w1 [e1|[]]]; [simplify_eq; left; by eexists|].
    right. destruct (decide (Forall (λ seg, is_dict seg = true) dialogue))
      as [Hall|Hsome].
    + destruct (for_each_dicts self 0 dialogue []
                  (after_makedirs (output_dir self) w1 s) Hall) as (s1 & out & Hloop).
      by rewrite Hloop in Hrun.
    + apply not_Forall_Exists in Hsome; [|apply _].
      apply Exists_exists in Hsome as ([sp tx|sp tx] & Hin & Hnot);
        [by destruct Hnot|].
      destruct (for_each_raises self 0 dialogue [] sp tx
                  (after_makedirs (output_dir self) w1 s) Hin) as [s1 Hloop].
      rewrite Hloop in Hrun. simplify_eq. split; [done|]. by exists sp, tx.
  - intros s' paths Hrun. rewrite run_eq in Hrun.
    destruct (os_makedirs _ _) as [w1 [e|[]]]; [done|].
    destruct (for_each self 0 dialogue [] _) as [s1 [e|out]] eqn:Hloop; [done|].
    simplify_eq.
    pose proof (for_each_written _ _ _ _ _ _ _ Hloop) as (new & Hc & Hwritten).
    simpl in Hc. exists (Call_makedirs (output_dir self) :: new).
    split; [by rewrite Hc, <- app_assoc|].
    split; [apply sorted_is_sorted|].
    apply for_each_files in Hloop as (idxs & _ & Hall).
    apply Forall_forall. intros p Hp.
    apply (elem_of_Permutation_proper _ _ _ (sorted_perm out)) in Hp.
    split.
    + apply list_elem_of_lookup in Hp as [j Hj].
      destruct (Forall2_lookup_r _ _ _ j p Hall Hj) as (i & _ & Hi).
      by exists i.
    + rewrite Forall_forall in Hwritten.
      destruct (Hwritten p Hp) as [Hnil|(data & Hdata)];
        [by apply elem_of_nil in Hnil|].
      exists data. by apply list_elem_of_further.
  - intros w1 w' cs out Hall Hmk Heff.
    destruct (run_refines self dialogue s w1 w' cs out Hall Hmk Heff)
      as (s' & Hrun & Hw & Hc).
    exists s'. split_and!; [done..|].
    intros i p. by apply (script_effect_produces self dialogue w1 w' cs out).
  - intros before after sp tx vc w1 w3 cb c3 ob o3 acc st s1 e
      -> Hb Ha Hmk Hbefore Hsp Htx Hvc Hbody Hafter.
    destruct (line_effect_failure _ _ _ _ _ _ _ _ _ Hsp Htx Hvc Hbody)
      as (c2 & Hline & Hc2).
    destruct (run_around_line self before after (DictSegment sp tx) s w1
                (world st) (world s1) w3 cb c2 c3 ob o3 None)
      as (s' & Hrun & Hw & Hc); [|done..|].
    { apply Forall_app. split; [done|]. by constructor. }
    by exists s', c2.
Qed.

(** The effect of a line whose synthesis and write succeed. *)
Lemma line_effect_written self (index : nat) (sp tx : option str)
    (vc : voice_entry) (w w1 w2 : W) (chunks : list bytes) :
  let filename := filename_of self index (stripped sp) in
  let written := [Call_convert (request_of (stripped tx) vc);
                  Call_write filename (join_bytes chunks)] in
  stripped sp ≠ [] → stripped tx ≠ [] →
  voice_configs self !! stripped sp = Some vc →
  text_to_speech_convert (request_of (stripped tx) vc) w = (w1, inr chunks) →
  open_write filename (join_bytes chunks) w1 = (w2, inr tt) →
  line_effect self index (DictSegment sp tx) w
  = if normalize (audio_config self) then
      match from_file filename w2 with
      | (w3, inl _) => (w3, written ++ [Call_from_file filename], None)
      | (w3, inr audio) =>
          let boosted := apply_gain (effects_normalize audio) 4 in
          (fst (export boosted filename (normalize_args self) w3),
           written ++ [Call_from_file filename;
                       Call_export boosted filename (normalize_args self)],
           match snd (export boosted filename (normalize_args self) w3) with
           | inl _ => None
           | inr _ => Some (index, filename)
           end)
      end
    else (w2, written, Some (index, filename)).
Proof.
  intros filename written Hsp Htx Hvc Hconv Hwrite. unfold line_effect.
  rewrite (bool_decide_eq_false_2 _ Hsp), (bool_decide_eq_false_2 _ Htx).
  cbn [orb]. rewrite Hvc, Hconv. fold filename. rewrite Hwrite.
  destruct (normalize (audio_config self)); [|done].
  destruct (from_file filename w2) as [w3 [e|audio]]; [done|].
  by destruct (export _ filename (normalize_args self) w3) as [w4 r].
Qed.

(** C8: the normalization pass.  Take a line whose synthesis and write
    succeed.  With [normalize] on, the next calls are
    [AudioSegment.from_file] on the file just written and, when that
    decodes, [export] over the same path of [normalize()] followed by
    [+ 4], with the configured format, bitrate and ["-ar", sample_rate].
    With [normalize] off, the body ends after the write, and no run makes
    a [from_file] or [export] call at all.  In both cases the statement
    is also about the whole run: for a script in which the line stands
    between the lines [before] and [after], the calls of [_run] are
    [makedirs], the calls of [before], the calls of the line as just
    described, and the calls of [after]. *)
Theorem generator_normalize_pass self (index : nat) (speaker text : str)
    (vc : voice_entry) (audio_files : list str) s (w1 w2 : W)
    (chunks : list bytes) :
  let filename := filename_of self index speaker in
  let written := [Call_convert (request_of text vc);
                  Call_write filename (join_bytes chunks)] in
  text_to_speech_convert (request_of text vc) (world s) = (w1, inr chunks) →
  open_write filename (join_bytes chunks) w1 = (w2, inr tt) →
  (normalize (audio_config self) = true →
   ∀ (w3 : W) (audio : Audio), from_file filename w2 = (w3, inr audio) →
     let boosted := apply_gain (effects_normalize audio) 4 in
     let args := {| export_format := format (audio_config self);
                    export_bitrate := Some (bitrate (audio_config self));
                    export_parameters :=
                      [lit "-ar"; str_of_int (sample_rate (audio_config self))] |} in
     (∃ s',
        PodcastAudioGenerator.try_body self index speaker text vc audio_files s
        = (s', match snd (export boosted filename args w3) with
               | inl e => inl e
               | inr _ => inr (audio_files ++ [filename])
               end)
        ∧ world s' = fst (export boosted filename args w3)
        ∧ calls s' = calls s ++ written
                     ++ [Call_from_file filename;
                         Call_export boosted filename args])
     ∧ (∀ (before after : list segment) (sp tx : option str) s0
          (w0 w5 : W) (cb ca : list call) (ob oa : list (nat * str)),
          index = length before →
          stripped sp = speaker → stripped tx = text →
          speaker ≠ [] → text ≠ [] →
          voice_configs self !! speaker = Some vc →
          Forall (λ seg, is_dict seg = true) before →
          Forall (λ seg, is_dict seg = true) after →
          os_makedirs (output_dir self) (world s0) = (w0, inr tt) →
          script_effect self 0 before w0 = (world s, cb, ob) →
          script_effect self (S index) after
            (fst (export boosted filename args w3)) = (w5, ca, oa) →
          ∃ s',
            PodcastAudioGenerator._run self
              (before ++ DictSegment sp tx :: after) s0
            = (s', inr (sorted (map snd
                 (ob ++ match snd (export boosted filename args w3) with
                        | inl _ => []
                        | inr _ => [(index, filename)]
                        end ++ oa))))
            ∧ world s' = w5
            ∧ calls s' = calls s0 ++ Call_makedirs (output_dir self)
                         :: cb
                            ++ (written
                                ++ [Call_from_file filename;
                                    Call_export boosted filename args])
                            ++ ca))
  ∧ (normalize (audio_config self) = false →
     (∃ s',
        PodcastAudioGenerator.try_body self index speaker text vc audio_files s
        = (s', inr (audio_files ++ [filename]))
        ∧ world s' = w2
        ∧ calls s' = calls s ++ written)
     ∧ (∀ (dialogue : list segment) s0 s' r,
         PodcastAudioGenerator._run self dialogue s0 = (s', r) →
         ∃ new, calls s' = calls s0 ++ new
           ∧ Forall (λ c, is_normalize_call c = false) new)
     ∧ (∀ (before after : list segment) (sp tx : option str) s0
          (w0 w5 : W) (cb ca : list call) (ob oa : list (nat * str)),
          index = length before →
          stripped sp = speaker → stripped tx = text →
          speaker ≠ [] → text ≠ [] →
          voice_configs self !! speaker = Some vc →
          Forall (λ seg, is_dict seg = true) before →
          Forall (λ seg, is_dict seg = true) after →
          os_makedirs (output_dir self) (world s0) = (w0, inr tt) →
          script_effect self 0 before w0 = (world s, cb, ob) →
          script_effect self (S index) after w2 = (w5, ca, oa) →
          ∃ s',
            PodcastAudioGenerator._run self
              (before ++ DictSegment sp tx :: after) s0
            = (s', inr (sorted (map snd (ob ++ [(index, filename)] ++ oa))))
            ∧ world s' = w5
            ∧ calls s' = calls s0 ++ Call_makedirs (output_dir self)
                         :: cb ++ written ++ ca)).
Proof.
  intros filename written Hconv Hwrite. split.
  - intros Hon w3 audio Hdec boosted args. split.
    + unfold PodcastAudioGenerator.try_body, normalize_pass.
      unfold bind at 1, convert, effect. simpl. rewrite Hconv.
      unfold bind at 1, write_file, effect. simpl. fold filename. rewrite Hwrite.
      rewrite Hon. unfold bind at 1.
      unfold bind at 1, AudioSegment_from_file, effect. simpl. rewrite Hdec.
      unfold AudioSegment_export, effect. simpl.
      change (normalize_args self) with args. fold boosted.
      destruct (export boosted filename args w3) as [w4 [e|[]]]; simpl;
        unfold_run; simpl; eexists; (split_and!; [reflexivity | done |]);
        simpl; by repeat (rewrite <- ?app_assoc; simpl).
    + intros before after sp tx s0 w0 w5 cb ca ob oa
        Hindex Hspeaker Htext Hsp Htx Hvc Hb Ha Hmk Hbefore Hafter.
      subst index speaker text.
      pose proof (line_effect_written self (length before) sp tx vc (world s)
                    w1 w2 chunks Hsp Htx Hvc Hconv Hwrite) as Hline.
      fold filename in Hline. rewrite Hon, Hdec in Hline.
      change (normalize_args self) with args in Hline.
      cbv zeta in Hline. fold boosted in Hline.
      edestruct (run_around_line self before after (DictSegment sp tx) s0 w0
                   (world s))
        as (s' & Hrun & Hw & Hc);
        [|exact Hmk|exact Hbefore|exact Hline|exact Hafter|].
      { apply Forall_app. split; [done|]. by constructor. }
      exists s'. split_and!; [|done..]. rewrite Hrun.
      by destruct (snd (export boosted filename args w3)).
  - intros Hoff. split_and!.
    + unfold PodcastAudioGenerator.try_body.
      unfold bind at 1, convert, effect. simpl. rewrite Hconv.
      unfold bind at 1, write_file, effect. simpl. fold filename. rewrite Hwrite.
      rewrite Hoff. unfold_run. simpl. eexists.
      split_and!; [reflexivity | done |]. simpl.
      by repeat (rewrite <- ?app_assoc; simpl).
    + intros dialogue s0 s' r Hrun. rewrite run_eq in Hrun.
      destruct (os_makedirs _ _) as [w [e|[]]].
      { simplify_eq. eexists. split; [reflexivity|]. by repeat constructor. }
      destruct (for_each self 0 dialogue [] _) as [s1 r1] eqn:Hloop.
      apply for_each_calls in Hloop as (new & Hc & Hnew). simpl in Hc.
      exists (Call_makedirs (output_dir self) :: new).
      split.
      * destruct r1; simplify_eq; rewrite Hc; by rewrite <- app_assoc.
      * constructor; [done | by apply Hnew].
    + intros before after sp tx s0 w0 w5 cb ca ob oa
        Hindex Hspeaker Htext Hsp Htx Hvc Hb Ha Hmk Hbefore Hafter.
      subst index speaker text.
      pose proof (line_effect_written self (length before) sp tx vc (world s)
                    w1 w2 chunks Hsp Htx Hvc Hconv Hwrite) as Hline.
      fold filename in Hline. rewrite Hoff in Hline.
      edestruct (run_around_line self before after (DictSegment sp tx) s0 w0
                   (world s))
        as (s' & Hrun & Hw & Hc);
        [|exact Hmk|exact Hbefore|exact Hline|exact Hafter|].
      { apply Forall_app. split; [done|]. by constructor. }
      by exists s'.
Qed.

End Generator.

(** ** More on the generator *)

Section GeneratorMore.
Context `{Platform}.
Import PodcastAudioGenerator.

Implicit Types (self : PodcastAudioGenerator.t) (s : state).

(** X1: the registry after [add_voice].  The name maps to the given voice
    id with the given settings (the defaults when none are given); every
    other name is as before; registering a name again replaces the
    earlier entry; the render settings and the output directory are not
    touched. *)
Theorem add_voice_lookup self (name vid : str) (cfg : option VoiceConfig) :
  voice_configs (add_voice self name vid cfg) !! name
  = Some {| voice_id := vid;
            config := match cfg with Some c => c | None => VoiceConfig_default end |}
  ∧ (∀ other, other ≠ name →
       voice_configs (add_voice self name vid cfg) !! other
       = voice_configs self !! other)
  ∧ (∀ vid0 cfg0,
       add_voice (add_voice self name vid0 cfg0) name vid cfg
       = add_voice self name vid cfg)
  ∧ audio_config (add_voice self name vid cfg) = audio_config self
  ∧ output_dir (add_voice self name vid cfg) = output_dir self.
Proof.
  split_and!; [| |intros vid0 cfg0|done|done]; unfold add_voice; simpl.
  - apply lookup_insert_eq.
  - intros other Hne. by apply lookup_insert_ne.
  - by rewrite insert_insert_eq.
Qed.

Lemma try_body_first_call self (index : nat) (speaker text : str)
    (vc : voice_entry) (acc : list str) s s1 r :
  PodcastAudioGenerator.try_body self index speaker text vc acc s = (s1, r) →
  ∃ new, calls s1 = calls s ++ Call_convert (request_of text vc) :: new
    ∧ length (List.filter is_convert new) = 0
    ∧ Forall (λ c, is_makedirs c = false ∧ is_query c = false) new.
Proof.
  unfold PodcastAudioGenerator.try_body, normalize_pass. intros Hrun.
  unfold bind at 1, convert, effect in Hrun. simpl in Hrun.
  destruct (text_to_speech_convert _ (world s)) as [w1 [e|chunks]].
  { simplify_eq/=. by exists []. }
  unfold bind at 1, write_file, effect in Hrun. simpl in Hrun.
  destruct (open_write _ _ w1) as [w2 [e|[]]].
  { simplify_eq/=. eexists. rewrite <- app_assoc. split; [done|].
    split; [done | by repeat constructor]. }
  unfold bind at 1 in Hrun.
  destruct (normalize (audio_config self)).
  - unfold bind at 1, AudioSegment_from_file, effect in Hrun. simpl in Hrun.
    destruct (from_file _ w2) as [w3 [e|audio]].
    { simplify_eq/=. eexists. rewrite <- !app_assoc. split; [done|].
      split; [done | by repeat constructor]. }
    unfold AudioSegment_export, effect in Hrun. simpl in Hrun.
    destruct (export _ _ _ w3) as [w4 [e|[]]]; unfold_run; simplify_eq/=;
      eexists; rewrite <- !app_assoc; (split; [done|]);
      (split; [done | by repeat constructor]).
  - unfold_run. simplify_eq/=. eexists. rewrite <- !app_assoc. split; [done|].
    split; [done | by repeat constructor].
Qed.

(** X2: a registered voice is the one the provider is asked for.  After
    [add_voice(name, voice_id, config)], a line whose stripped speaker is
    [name] and whose stripped text is not empty starts with a call of
    [convert], for the stripped text, with that voice id and the model,
    output format and voice settings of that configuration, and it is the
    only [convert] call of the line. *)
Theorem generator_uses_registered_voice self (name vid : str)
    (cfg : option VoiceConfig) (index : nat) (sp tx : option str)
    (audio_files : list str) s :
  stripped sp = name → name ≠ [] → stripped tx ≠ [] →
  let c := match cfg with Some c => c | None => VoiceConfig_default end in
  ∃ s' l new,
    loop_body (add_voice self name vid cfg) index (DictSegment sp tx)
      audio_files s = (s', inr l)
    ∧ calls s'
      = calls s
        ++ Call_convert {| tts_text := stripped tx;
                           tts_voice_id := vid;
                           tts_model_id := model_id c;
                           tts_output_format := output_format c;
                           tts_stability := stability c;
                           tts_similarity_boost := similarity_boost c;
                           tts_style := style c;
                           tts_use_speaker_boost := use_speaker_boost c |}
           :: new
    ∧ List.filter is_convert new = [].
Proof.
  intros Hsp Hname Htx c. rewrite loop_body_dict, Hsp.
  rewrite (bool_decide_eq_false_2 _ Hname), (bool_decide_eq_false_2 _ Htx).
  unfold add_voice at 1. cbn [voice_configs orb]. rewrite lookup_insert_eq.
  destruct (PodcastAudioGenerator.try_body _ _ _ _ _ _ _) as [s1 [e|l]] eqn:Hbody;
    apply try_body_first_call in Hbody as (new & Hc & Hone & _);
    eexists _, _, new; (split_and!; [reflexivity | exact Hc |]);
    by apply length_zero_iff_nil.
Qed.

(** X3: the file name determines the line and the speaker. *)
Theorem filename_of_inj self (i j : nat) (sp1 sp2 : str) :
  filename_of self i sp1 = filename_of self j sp2 → i = j ∧ sp1 = sp2.
Proof.
  intros Heq. assert (i = j) as ->.
  { apply (f_equal (ordinal_prefix (output_dir self))) in Heq.
    rewrite !ordinal_prefix_filename in Heq. by simplify_eq. }
  split; [done|]. unfold filename_of in Heq.
  do 4 apply app_inv_head in Heq. by apply app_inv_tail in Heq.
Qed.

Lemma increasing_length (l : list nat) (k n : nat) :
  StronglySorted lt l → Forall (λ i, k ≤ i < n) l → length l ≤ n - k.
Proof.
  revert k. induction l as [|a l IH]; intros k Hsort Hall; simpl; [lia|].
  apply StronglySorted_inv in Hsort as [Hsort Hlt].
  apply Forall_cons in Hall as [Ha Hall].
  assert (length l ≤ n - S a); [|lia].
  apply IH; [done|]. rewrite Forall_forall in Hall, Hlt. apply Forall_forall.
  intros i Hi. specialize (Hall i Hi). specialize (Hlt i Hi). lia.
Qed.

Lemma files_distinct self (dialogue : list segment) (idxs : list nat)
    (paths : list str) :
  StronglySorted lt idxs →
  Forall2 (file_of_line self dialogue) idxs paths →
  NoDup paths.
Proof.
  intros Hsort Hall. induction Hall as [|i p idxs paths Hi Hall IH];
    [constructor|].
  apply StronglySorted_inv in Hsort as [Hsort Hlt]. constructor; [|by apply IH].
  intros Hp. apply list_elem_of_lookup in Hp as [n Hn].
  destruct (Forall2_lookup_r _ _ _ n p Hall Hn) as (j & Hj & Hfile).
  destruct Hi as (_ & _ & _ & _ & Hi), Hfile as (_ & _ & _ & _ & Hfile).
  rewrite Hi in Hfile. simplify_eq.
  rewrite Forall_forall in Hlt.
  assert (j ∈ idxs) as Hin by (by eapply list_elem_of_lookup_2).
  specialize (Hlt j Hin). lia.
Qed.

(** X4: sorting only reorders.  For a dialogue of any length, the paths
    [_run] returns are pairwise distinct, there are at most as many as
    lines, and they are a permutation of the files of lines of strictly
    increasing index. *)
Theorem generator_paths_distinct self (dialogue : list segment) s s'
    (paths : list str) :
  PodcastAudioGenerator._run self dialogue s = (s', inr paths) →
  NoDup paths
  ∧ length paths ≤ length dialogue
  ∧ ∃ (idxs : list nat) (in_order : list str),
      StronglySorted lt idxs
      ∧ Forall2 (file_of_line self dialogue) idxs in_order
      ∧ paths ≡ₚ in_order.
Proof.
  intros Hrun. rewrite run_eq in Hrun.
  destruct (os_makedirs _ _) as [w1 [e|[]]]; [done|].
  destruct (for_each self 0 dialogue [] _) as [s1 [e|out]] eqn:Hloop; [done|].
  simplify_eq. apply for_each_files in Hloop as (idxs & Hsort & Hall).
  pose proof (sorted_perm out) as Hperm. split_and!.
  - rewrite Hperm. by eapply files_distinct.
  - rewrite Hperm, <- (Forall2_length _ _ _ Hall).
    rewrite <- (Nat.sub_0_r (length dialogue)).
    apply increasing_length; [done|]. apply Forall_forall. intros i Hi.
    apply list_elem_of_lookup in Hi as [n Hn].
    destruct (Forall2_lookup_l _ _ _ n i Hall Hn) as (p & _ & sp & tx & Hline & _).
    apply lookup_lt_Some in Hline. lia.
  - by exists idxs, out.
Qed.

Lemma for_each_skipped self (k : nat) (rest : list segment) (acc : list str) s :
  Forall (skipped self) rest →
  ∃ s', for_each self k rest acc s = (s', inr acc) ∧ same_effects s' s.
Proof.
  intros Hall. revert k s. induction Hall as [|seg rest Hseg _ IH]; intros k s.
  - by eexists.
  - rewrite for_each_cons.
    destruct (loop_body_skipped self k seg acc s Hseg) as (s1 & -> & Hw1 & Hc1).
    destruct (IH (S k) s1) as (s' & -> & Hw & Hc). exists s'.
    split; [done|]. split; congruence.
Qed.

(** X5: nothing to synthesize.  When every line of the dialogue is
    skipped by the guards (in particular when the dialogue is empty), a
    run whose [makedirs] succeeds returns the empty list and [makedirs]
    is its only external call: the output directory is created even
    though no file is produced. *)
Theorem generator_nothing_to_do self (dialogue : list segment) s (w1 : W) :
  os_makedirs (output_dir self) (world s) = (w1, inr tt) →
  Forall (skipped self) dialogue →
  ∃ s', PodcastAudioGenerator._run self dialogue s = (s', inr [])
    ∧ world s' = w1
    ∧ calls s' = calls s ++ [Call_makedirs (output_dir self)].
Proof.
  intros Hmk Hall. rewrite run_eq, Hmk.
  destruct (for_each_skipped self 0 dialogue []
              (after_makedirs (output_dir self) w1 s) Hall) as (s' & -> & Hw & Hc).
  exists s'. split_and!; [reflexivity | exact Hw | exact Hc].
Qed.

(** X7: a failed normalization leaves the raw file behind.  With
    [normalize] on, when synthesis and the write succeed and then
    decoding the written file, or exporting it, raises, the iteration
    ends normally with the list of files unchanged: the line is not
    returned although its file was written, and no call follows the
    failing one (nothing is removed). *)
Theorem generator_normalize_failure self (index : nat) (sp tx : option str)
    (vc : voice_entry) (audio_files : list str) s (w1 w2 : W)
    (chunks : list bytes) :
  let filename := filename_of self index (stripped sp) in
  let written := [Call_convert (request_of (stripped tx) vc);
                  Call_write filename (join_bytes chunks)] in
  stripped sp ≠ [] → stripped tx ≠ [] →
  voice_configs self !! stripped sp = Some vc →
  normalize (audio_config self) = true →
  text_to_speech_convert (request_of (stripped tx) vc) (world s)
  = (w1, inr chunks) →
  open_write filename (join_bytes chunks) w1 = (w2, inr tt) →
  (∀ (w3 : W) (e : exn), from_file filename w2 = (w3, inl e) →
     ∃ s', loop_body self index (DictSegment sp tx) audio_files s
           = (s', inr audio_files)
       ∧ world s' = w3
       ∧ calls s' = calls s ++ written ++ [Call_from_file filename])
  ∧ (∀ (w3 w4 : W) (audio : Audio) (e : exn),
       from_file filename w2 = (w3, inr audio) →
       export (apply_gain (effects_normalize audio) 4) filename
         (normalize_args self) w3 = (w4, inl e) →
       ∃ s', loop_body self index (DictSegment sp tx) audio_files s
             = (s', inr audio_files)
         ∧ world s' = w4
         ∧ calls s' = calls s ++ written
                      ++ [Call_from_file filename;
                          Call_export (apply_gain (effects_normalize audio) 4)
                            filename (normalize_args self)]).
Proof.
  intros filename written Hsp Htx Hvc Hon Hconv Hwrite.
  assert (∀ P : state * (exn + list str) → Prop,
            P (match PodcastAudioGenerator.try_body self index (stripped sp)
                       (stripped tx) vc audio_files s with
               | (s1, inl e) => handled index audio_files e s1
               | (s1, inr l) => (s1, inr l)
               end) →
            P (loop_body self index (DictSegment sp tx) audio_files s)) as Hbody.
  { intros P HP. rewrite loop_body_dict, Hvc.
    by rewrite (bool_decide_eq_false_2 _ Hsp), (bool_decide_eq_false_2 _ Htx). }
  split.
  - intros w3 e Hdec. apply Hbody.
    unfold PodcastAudioGenerator.try_body, normalize_pass.
    unfold bind at 1, convert, effect. simpl. rewrite Hconv.
    unfold bind at 1, write_file, effect. simpl. fold filename. rewrite Hwrite.
    rewrite Hon. unfold bind at 1.
    unfold bind at 1, AudioSegment_from_file, effect. simpl. rewrite Hdec.
    unfold handled. simpl. eexists. split_and!; [reflexivity | done |].
    by repeat (rewrite <- ?app_assoc; simpl).
  - intros w3 w4 audio e Hdec Hexp. apply Hbody.
    unfold PodcastAudioGenerator.try_body, normalize_pass.
    unfold bind at 1, convert, effect. simpl. rewrite Hconv.
    unfold bind at 1, write_file, effect. simpl. fold filename. rewrite Hwrite.
    rewrite Hon. unfold bind at 1.
    unfold bind at 1, AudioSegment_from_file, effect. simpl. rewrite Hdec.
    unfold AudioSegment_export, effect. simpl. rewrite Hexp.
    unfold handled. simpl. eexists. split_and!; [reflexivity | done |].
    by repeat (rewrite <- ?app_assoc; simpl).
Qed.

Lemma lstrip_app (a b : str) :
  lstrip (a ++ b) = match lstrip a with [] => lstrip b | x => x ++ b end.
Proof.
  induction a as [|c a IH]; simpl.
  - by destruct (lstrip b).
  - by destruct (isspace c).
Qed.

Lemma lstrip_spaces (l : str) :
  Forall (λ c, isspace c = true) l → lstrip l = [].
Proof. induction 1 as [|c l Hc _ IH]; simpl; [done|]. by rewrite Hc. Qed.

Lemma rstrip_app_spaces (x r : str) :
  Forall (λ c, isspace c = true) r → rstrip (x ++ r) = rstrip x.
Proof.
  intros Hr. unfold rstrip. rewrite rev_app_distr, lstrip_app.
  rewrite lstrip_spaces; [done|]. apply Forall_forall. intros c Hc.
  rewrite Forall_forall in Hr. apply Hr.
  by apply list_elem_of_In, in_rev, list_elem_of_In.
Qed.

(** Whitespace around a string does not survive [strip]. *)
Lemma strip_padding (l s r : str) :
  Forall (λ c, isspace c = true) l → Forall (λ c, isspace c = true) r →
  strip (l ++ s ++ r) = strip s.
Proof.
  intros Hl Hr. unfold strip.
  rewrite lstrip_app, (lstrip_spaces l Hl), lstrip_app.
  destruct (lstrip s) as [|c x] eqn:Hs.
  - by rewrite (lstrip_spaces r Hr).
  - by apply rstrip_app_spaces.
Qed.

(** X8: surrounding whitespace never matters.  A line whose speaker and
    text are wrapped in whitespace is processed exactly as the line
    without it: the same guard decisions, the same voice, the same
    request and the same file name. *)
Theorem generator_ignores_padding self (index : nat) (sp tx l1 r1 l2 r2 : str)
    (audio_files : list str) s :
  Forall (λ c, isspace c = true) (l1 ++ r1 ++ l2 ++ r2) →
  loop_body self index
    (DictSegment (Some (l1 ++ sp ++ r1)) (Some (l2 ++ tx ++ r2))) audio_files s
  = loop_body self index (DictSegment (Some sp) (Some tx)) audio_files s.
Proof.
  intros Hpad. apply Forall_app in Hpad as [Hl1 Hpad].
  apply Forall_app in Hpad as [Hr1 Hpad]. apply Forall_app in Hpad as [Hl2 Hr2].
  rewrite !loop_body_dict. unfold stripped.
  by rewrite !strip_padding.
Qed.

Lemma try_body_congr self1 self2 (index : nat) (speaker text : str)
    (vc1 vc2 : voice_entry) (acc : list str) s :
  same_render_settings self1 self2 →
  request_of text vc1 = request_of text vc2 →
  PodcastAudioGenerator.try_body self1 index speaker text vc1 acc s
  = PodcastAudioGenerator.try_body self2 index speaker text vc2 acc s.
Proof.
  intros (Hdir & Hf & Hb & Hr & Hn) Hreq.
  unfold PodcastAudioGenerator.try_body, normalize_pass, normalize_args,
    filename_of.
  by rewrite Hdir, Hf, Hb, Hr, Hn, Hreq.
Qed.

Lemma loop_body_congr self1 self2 (index : nat) (seg : segment)
    (acc : list str) s :
  same_render_settings self1 self2 →
  (∀ k, same_requests (voice_configs self1 !! k) (voice_configs self2 !! k)) →
  loop_body self1 index seg acc s = loop_body self2 index seg acc s.
Proof.
  intros Hset Hreq. destruct seg as [sp tx|sp tx]; [|done].
  rewrite !loop_body_dict. destruct (_ || _); [done|].
  specialize (Hreq (stripped sp)).
  destruct (voice_configs self1 !! _) as [vc1|],
           (voice_configs self2 !! _) as [vc2|]; try done.
  by rewrite (try_body_congr self1 self2 _ _ _ vc1 vc2).
Qed.

Lemma run_congr self1 self2 (dialogue : list segment) s :
  same_render_settings self1 self2 →
  (∀ k, same_requests (voice_configs self1 !! k) (voice_configs self2 !! k)) →
  PodcastAudioGenerator._run self1 dialogue s
  = PodcastAudioGenerator._run self2 dialogue s.
Proof.
  intros Hset Hreq. rewrite !run_eq. destruct Hset as (Hdir & Hrest) eqn:E.
  rewrite Hdir. destruct (os_makedirs _ _) as [w1 [e|[]]]; [done|].
  assert (∀ k acc st, for_each self1 k dialogue acc st
                      = for_each self2 k dialogue acc st) as ->; [|done].
  clear E. induction dialogue as [|seg rest IH]; intros k acc st; [done|].
  rewrite !for_each_cons, (loop_body_congr self1 self2); [|by split|done].
  destruct (loop_body self2 k seg acc st) as [s1 [e|l]]; [done|]. apply IH.
Qed.

(** X9: render settings without effect.  [channels], [target_loudness]
    and [compression_ratio] of the audio configuration are never read:
    whatever they are set to, the run returns the same result, makes the
    same calls and prints the same lines. *)
Theorem generator_unused_audio_settings self (ch : Z) (tl cr : float)
    (dialogue : list segment) s :
  PodcastAudioGenerator._run
    {| voice_configs := voice_configs self;
       audio_config := {| format := format (audio_config self);
                          sample_rate := sample_rate (audio_config self);
                          channels := ch;
                          bitrate := bitrate (audio_config self);
                          normalize := normalize (audio_config self);
                          target_loudness := tl;
                          compression_ratio := cr |};
       output_dir := output_dir self |} dialogue s
  = PodcastAudioGenerator._run self dialogue s.
Proof.
  apply run_congr; [by repeat split|].
  intros k. simpl. by destruct (voice_configs self !! k).
Qed.

(** X10: [apply_text_normalization] never reaches the provider.  Setting
    it to any value in every registered voice changes nothing in a run:
    the request sent to [convert] does not carry it. *)
Theorem generator_unused_text_normalization self (mode : str)
    (dialogue : list segment) s :
  PodcastAudioGenerator._run
    {| voice_configs := with_text_normalization mode <$> voice_configs self;
       audio_config := audio_config self;
       output_dir := output_dir self |} dialogue s
  = PodcastAudioGenerator._run self dialogue s.
Proof.
  apply run_congr; [by repeat split|].
  intros k. simpl. rewrite lookup_fmap.
  by destruct (voice_configs self !! k).
Qed.

Lemma loop_body_requests self (index : nat) (seg : segment) (acc : list str)
    s s' r :
  loop_body self index seg acc s = (s', r) →
  ∃ new, calls s' = calls s ++ new
    ∧ length (List.filter is_convert new) ≤ 1
    ∧ Forall (λ c, is_makedirs c = false ∧ is_query c = false) new.
Proof.
  assert (∀ st : state, calls st = calls s →
            ∃ new, calls st = calls s ++ new
              ∧ length (List.filter is_convert new) ≤ 1
              ∧ Forall (λ c, is_makedirs c = false ∧ is_query c = false) new)
    as Hnone.
  { intros st Hst. exists []. rewrite app_nil_r. split_and!; [done|simpl; lia|done]. }
  destruct seg as [sp tx|sp tx].
  2:{ rewrite loop_body_dialogue. intros [= <- <-]. by apply Hnone. }
  rewrite loop_body_dict. destruct (_ || _); [intros [= <- <-]; by apply Hnone|].
  destruct (voice_configs self !! _) as [vc|]; [|intros [= <- <-]; by apply Hnone].
  destruct (PodcastAudioGenerator.try_body _ _ _ _ _ _ _) as [s1 [e|l]] eqn:Hbody;
    apply try_body_first_call in Hbody as (new & Hc & Hcount & Hnew);
    unfold handled; intros [= <- <-]; simpl;
    exists (Call_convert (request_of (stripped tx) vc) :: new);
    (split_and!; [done | simpl; lia | by constructor]).
Qed.

(** X11: one request per line, no retry.  Whatever happens, a run of the
    generator starts with its single [makedirs] call, asks the provider at
    most once per line of the dialogue, and never calls [getcwd] or
    [exists]. *)
Theorem generator_one_request_per_line self (dialogue : list segment) s s' r :
  PodcastAudioGenerator._run self dialogue s = (s', r) →
  ∃ new, calls s' = calls s ++ Call_makedirs (output_dir self) :: new
    ∧ length (List.filter is_convert new) ≤ length dialogue
    ∧ Forall (λ c, is_makedirs c = false ∧ is_query c = false) new.
Proof.
  intros Hrun. rewrite run_eq in Hrun.
  destruct (os_makedirs _ _) as [w1 [e|[]]].
  { simplify_eq. exists []. split_and!; [done | simpl; lia | done]. }
  assert (∀ k acc st st' r',
            for_each self k dialogue acc st = (st', r') →
            ∃ new, calls st' = calls st ++ new
              ∧ length (List.filter is_convert new) ≤ length dialogue
              ∧ Forall (λ c, is_makedirs c = false ∧ is_query c = false) new)
    as Hloop.
  { clear. induction dialogue as [|seg rest IH]; intros k acc st st' r' Hloop.
    - simpl in Hloop. unfold ret in Hloop. simplify_eq. exists [].
      rewrite app_nil_r. split_and!; [done | simpl; lia | done].
    - rewrite for_each_cons in Hloop.
      destruct (loop_body self k seg acc st) as [s1 r1] eqn:Hbody.
      apply loop_body_requests in Hbody as (new1 & Hc1 & Hn1 & Hf1).
      destruct r1 as [e|l].
      + simplify_eq. exists new1. split_and!; [done | simpl; lia | done].
      + apply IH in Hloop as (new2 & Hc2 & Hn2 & Hf2). exists (new1 ++ new2).
        rewrite Hc2, Hc1, <- app_assoc. split_and!; [done| |by apply Forall_app].
        rewrite List.filter_app, length_app. simpl. lia. }
  destruct (for_each self 0 dialogue [] _) as [s1 r1] eqn:Hfor.
  apply Hloop in Hfor as (new & Hc & Hn & Hf). simpl in Hc.
  exists new. split_and!; [|done..].
  destruct r1; simplify_eq; by rewrite Hc, <- app_assoc.
Qed.

(** X12: lines are processed front to back.  Appending lines to a
    dialogue changes nothing for the lines before them: the run on the
    longer dialogue first makes exactly the calls of the run on the
    shorter one, and returns every path the shorter run returns. *)
Theorem generator_prefix_stable self (d1 d2 : list segment) s s1 s2
    (p1 p2 : list str) :
  PodcastAudioGenerator._run self d1 s = (s1, inr p1) →
  PodcastAudioGenerator._run self (d1 ++ d2) s = (s2, inr p2) →
  (∀ p, p ∈ p1 → p ∈ p2) ∧ ∃ new, calls s2 = calls s1 ++ new.
Proof.
  intros Hrun1 Hrun2. rewrite run_eq in Hrun1, Hrun2.
  destruct (os_makedirs _ _) as [w1 [e|[]]]; [done|].
  rewrite for_each_app in Hrun2.
  destruct (for_each self 0 d1 [] _) as [s1' [e|l]]; [done|]. simplify_eq.
  destruct (for_each self (0 + length d1) d2 l s1) as [s2' [e|out]] eqn:Hloop;
    [done|]. simplify_eq.
  pose proof (for_each_calls _ _ _ _ _ _ _ Hloop) as (new & Hc & _).
  apply for_each_paths in Hloop as (idxs & news & -> & _).
  split; [|by exists new]. intros p Hp.
  apply (elem_of_Permutation_proper _ _ _ (sorted_perm l)) in Hp.
  apply (elem_of_Permutation_proper _ _ _ (sorted_perm (l ++ news))).
  apply elem_of_app. by left.
Qed.

End GeneratorMore.

(** ** More on the mixer *)

Section MixerMore.
Context `{Platform}.
Import PodcastMixer.

Implicit Types (self : PodcastMixer.t) (s : state) (crossfade : Z).

(** X6: a failing [makedirs].  The generator calls it outside its [try]:
    the exception leaves [_run], before any line is read.  The mixer calls
    it inside its [try]: the run returns the empty string, records the
    exception, and checks no input. *)
Theorem makedirs_failure (gen : PodcastAudioGenerator.t) self
    (dialogue : list segment) (af : str) (rest : list str) crossfade s
    (w1 : W) (e : exn) :
  (os_makedirs (PodcastAudioGenerator.output_dir gen) (world s) = (w1, inl e) →
   PodcastAudioGenerator._run gen dialogue s
   = (after_makedirs (PodcastAudioGenerator.output_dir gen) w1 s, inl e))
  ∧ (os_makedirs (output_dir self) (world s) = (w1, inl e) →
     ∃ s', PodcastMixer._run self (af :: rest) crossfade s = (s', inr [])
       ∧ world s' = w1
       ∧ calls s' = calls s ++ [Call_makedirs (output_dir self)]
       ∧ tracebacks s' = tracebacks s ++ [e]).
Proof.
  split; intros Hmk.
  - by rewrite run_eq, Hmk.
  - rewrite run_nonempty. unfold PodcastMixer.try_body.
    unfold bind at 1, makedirs, effect. simpl. rewrite Hmk. by eexists.
Qed.

Lemma resolve_eq (af : str) s :
  resolve af s
  = (State (world s)
       (calls s ++ (if isabs af then [] else [Call_getcwd]))
       (stdout s) (tracebacks s),
     resolved_path (world s) af).
Proof.
  unfold resolve, resolved_path. destruct (isabs af).
  - rewrite app_nil_r. by destruct s.
  - unfold_run. simpl. by destruct (os_getcwd (world s)).
Qed.

Lemma validate_fallthrough (files validated v : list str) s s' :
  validate files validated s = (s', inr (Fallthrough v)) →
  ∃ ps, v = validated ++ ps ∧ Forall2 (present (world s)) files ps.
Proof.
  revert validated s. induction files as [|af rest IH]; intros validated s Hrun.
  - simpl in Hrun. unfold_run. simplify_eq/=. exists []. by rewrite app_nil_r.
  - simpl in Hrun. unfold bind at 1 in Hrun. rewrite resolve_eq in Hrun.
    destruct (resolved_path (world s) af) as [e|segment_path] eqn:Hres;
      [simplify_eq/=|].
    unfold bind at 1, path_exists, query, log in Hrun. simpl in Hrun.
    destruct (os_path_exists segment_path (world s)) eqn:Hex; simpl in Hrun.
    + apply IH in Hrun as (ps & -> & Hps). simpl in Hps.
      exists (segment_path :: ps). rewrite <- app_assoc. split; [done|].
      by constructor.
    + unfold_run. by simplify_eq/=.
Qed.

(** The loop over a present prefix. *)
Lemma validate_app_present (pre ps rest validated : list str) s :
  Forall2 (present (world s)) pre ps →
  validate (pre ++ rest) validated s
  = validate rest (validated ++ ps)
      (State (world s) (calls s ++ concat (zip_with check_calls pre ps))
         (stdout s) (tracebacks s)).
Proof.
  revert validated s ps.
  induction pre as [|af pre IH]; intros validated s ps Hall.
  - apply Forall2_nil_inv_l in Hall as ->. simpl. rewrite !app_nil_r.
    by destruct s.
  - apply Forall2_cons_inv_l in Hall as (p & ps' & [Hres Hex] & Hall & ->).
    rewrite <- app_comm_cons. simpl validate at 1.
    unfold bind at 1. rewrite resolve_eq, Hres.
    unfold bind at 1, path_exists, query, log. simpl. rewrite Hex. simpl.
    rewrite (IH _ _ ps'); [|done]. simpl. unfold check_calls.
    by rewrite <- !app_assoc.
Qed.

(** X16: validation stops at the first missing file.  When the inputs
    before [af] are present and [af] is missing, the run checks those
    inputs and [af], in this order, prints the path it looked for, and
    returns the empty string; the inputs after [af] are never looked
    at. *)
Theorem mixer_stops_at_first_missing self (pre ps post : list str)
    (af path : str) crossfade s (w1 : W) :
  os_makedirs (output_dir self) (world s) = (w1, inr tt) →
  Forall2 (present w1) pre ps →
  resolved_path w1 af = inr path → os_path_exists path w1 = false →
  ∃ s',
    PodcastMixer._run self (pre ++ af :: post) crossfade s = (s', inr [])
    ∧ calls s'
      = calls s ++ Call_makedirs (output_dir self)
        :: concat (zip_with check_calls pre ps) ++ check_calls af path
    ∧ last (stdout s')
      = Some (lit "ERROR: Segment file does not exist at path: " ++ path
              ++ lit ". (Original received: " ++ af ++ lit ")").
Proof.
  intros Hmk Hpre Hres Hex.
  assert (∃ a l, pre ++ af :: post = a :: l) as (a & l & Heq).
  { destruct pre; by eexists _, _. }
  rewrite Heq, run_nonempty, <- Heq. clear a l Heq.
  unfold PodcastMixer.try_body.
  unfold bind at 1, makedirs, effect. simpl. rewrite Hmk.
  unfold bind at 1, print. simpl. unfold bind at 1.
  rewrite (validate_app_present pre ps); [|exact Hpre]. simpl.
  unfold bind at 1. rewrite resolve_eq. simpl. rewrite Hres.
  unfold bind at 1, path_exists, query, log. simpl. rewrite Hex. simpl.
  unfold_run. simpl. eexists. split_and!; [reflexivity | |].
  - unfold check_calls. by repeat (rewrite <- ?app_assoc; simpl).
  - simpl. by rewrite last_snoc.
Qed.

(** X17: the working directory is only asked for relative inputs, and
    its failure aborts the mix.  When [os.getcwd] raises and the first
    input is relative, the run returns the empty string after the two
    calls [makedirs] and [getcwd]; no existence check is made. *)
Theorem mixer_getcwd_failure self (af : str) (rest : list str) crossfade s
    (w1 : W) (e : exn) :
  os_makedirs (output_dir self) (world s) = (w1, inr tt) →
  isabs af = false →
  os_getcwd w1 = inl e →
  ∃ s',
    PodcastMixer._run self (af :: rest) crossfade s = (s', inr [])
    ∧ world s' = w1
    ∧ calls s' = calls s ++ [Call_makedirs (output_dir self); Call_getcwd]
    ∧ tracebacks s' = tracebacks s ++ [e].
Proof.
  intros Hmk Hrel Hcwd. rewrite run_nonempty. unfold PodcastMixer.try_body.
  unfold bind at 1, makedirs, effect. simpl. rewrite Hmk.
  unfold bind at 1, print. simpl. unfold bind at 1, bind at 1.
  rewrite resolve_eq. unfold resolved_path. simpl. rewrite Hrel, Hcwd.
  eexists. split_and!; [reflexivity | done | | done].
  simpl. by rewrite <- app_assoc.
Qed.

Lemma merge_prefix crossfade (i : nat) (files : list str) (mixed : Audio)
    s s' r :
  merge crossfade i files mixed s = (s', r) →
  ∃ decoded, calls s' = calls s ++ map Call_from_file decoded
    ∧ decoded `prefix_of` files
    ∧ (∀ a, r = inr a → decoded = files).
Proof.
  revert i mixed s. induction files as [|f rest IH]; intros i mixed s Hrun.
  - simpl in Hrun. unfold_run. simplify_eq. exists []. by rewrite app_nil_r.
  - simpl in Hrun. unfold bind at 1, AudioSegment_from_file, effect in Hrun.
    simpl in Hrun. destruct (from_file f (world s)) as [w1 [e|seg]].
    { simplify_eq/=. exists [f]. split_and!; [done | | done].
      by apply prefix_cons, prefix_nil. }
    unfold bind at 1, lift_exn in Hrun.
    destruct (seg_append mixed (seg_add (silent 200) seg) crossfade) as [e|mixed'].
    { simplify_eq/=. exists [f]. split_and!; [done | | done].
      by apply prefix_cons, prefix_nil. }
    unfold bind at 1, print in Hrun. simpl in Hrun.
    apply IH in Hrun as (decoded & Hc & Hpre & Hall). simpl in Hc.
    exists (f :: decoded). rewrite Hc, <- app_assoc.
    split_and!; [done | by apply prefix_cons |].
    intros a Ha. by rewrite (Hall a Ha).
Qed.

(** X14: the phases of a mix.  Every run on a non-empty input makes its
    calls in this order: [makedirs]; [getcwd] and [exists] queries; then
    [from_file] on resolved inputs, in input order; then at most one
    [export].  A file is only decoded once every input has been found
    present, and the decoded files are then the first resolved inputs, in
    input order.  The export is only attempted once every input has been
    decoded, and it is the last call. *)
Theorem mixer_call_phases self (af : str) (rest : list str) crossfade s :
  ∃ s' out checks decoded exports,
    PodcastMixer._run self (af :: rest) crossfade s = (s', inr out)
    ∧ calls s'
      = calls s ++ Call_makedirs (output_dir self) :: checks
        ++ map Call_from_file decoded ++ exports
    ∧ Forall (λ c, is_query c = true) checks
    ∧ length decoded ≤ length (af :: rest)
    ∧ (decoded = []
       ∨ ∃ paths,
           Forall2 (present (fst (os_makedirs (output_dir self) (world s))))
             (af :: rest) paths
           ∧ decoded `prefix_of` paths)
    ∧ (exports = []
       ∨ ∃ mixed,
           exports = [Call_export mixed (final_path self) final_args]
           ∧ Forall2 (present (fst (os_makedirs (output_dir self) (world s))))
               (af :: rest) decoded)
    ∧ (out ≠ [] → exports ≠ []).
Proof.
  rewrite run_nonempty. remember (af :: rest) as files eqn:Hfiles.
  assert (∀ s1 r,
            PodcastMixer.try_body self files crossfade s = (s1, r) →
            ∃ checks decoded exports,
              calls s1 = calls s ++ Call_makedirs (output_dir self) :: checks
                         ++ map Call_from_file decoded ++ exports
              ∧ Forall (λ c, is_query c = true) checks
              ∧ length decoded ≤ length files
              ∧ (decoded = []
                 ∨ ∃ paths,
                     Forall2 (present (fst (os_makedirs (output_dir self)
                                              (world s)))) files paths
                     ∧ decoded `prefix_of` paths)
              ∧ (exports = []
                 ∨ ∃ mixed,
                     exports = [Call_export mixed (final_path self) final_args]
                     ∧ Forall2 (present (fst (os_makedirs (output_dir self)
                                                (world s)))) files decoded)
              ∧ (∀ v, r = inr v → v ≠ [] → exports ≠ [])) as Hbody.
  { clear Hfiles. intros s1 r Hrun. unfold PodcastMixer.try_body in Hrun.
    unfold bind at 1, makedirs, effect in Hrun. simpl in Hrun.
    destruct (os_makedirs (output_dir self) (world s)) as [w1 [e|[]]].
    { simplify_eq/=. exists [], [], [].
      split_and!; [done|done|simpl; lia|by left|by left|done]. }
    unfold bind at 1, print in Hrun. simpl in Hrun. unfold bind at 1 in Hrun.
    match type of Hrun with
    | context [validate files [] ?st] =>
        destruct (validate files [] st) as [s2 [e|[v|validated]]] eqn:Hval
    end.
    - apply validate_effects in Hval as [_ (checks & Hc & Hq)].
      simpl in Hc. rewrite <- app_assoc in Hc. simplify_eq/=.
      exists checks, [], []. rewrite !app_nil_r.
      split_and!; [done|done|simpl; lia|by left|by left|done].
    - pose proof (validate_return _ _ _ _ _ Hval) as ->.
      apply validate_effects in Hval as [_ (checks & Hc & Hq)].
      simpl in Hc. rewrite <- app_assoc in Hc. unfold ret in Hrun.
      simplify_eq/=. exists checks, [], []. rewrite !app_nil_r.
      split_and!; [done|done|simpl; lia|by left|by left|]. by intros v [= <-].
    - pose proof (validate_fallthrough _ _ _ _ _ Hval) as (ps & Hv & Hps).
      simpl in Hv, Hps. subst validated.
      apply validate_effects in Hval as [Hw2 (checks & Hc & Hq)].
      simpl in Hw2, Hc. rewrite <- app_assoc in Hc. simpl in Hc.
      pose proof (Forall2_length _ _ _ Hps) as Hlen.
      unfold bind at 1 in Hrun.
      destruct ps as [|first ps']; unfold_run.
      { simplify_eq/=. exists checks, [], []. rewrite !app_nil_r.
        split_and!; [done|done|simpl; lia|by left|by left|done]. }
      simpl in Hrun. destruct (from_file first (world s2)) as [w2 [e|mixed0]].
      { simplify_eq/=. exists checks, [first], [].
        split_and!;
          [|done|unfold str, char in *; simpl in *; lia| |by left|done].
        - rewrite Hc, app_nil_r. by repeat (rewrite <- ?app_assoc; simpl).
        - right. exists (first :: ps'). split; [exact Hps|].
          by apply prefix_cons, prefix_nil. }
      match type of Hrun with
      | context [merge crossfade 0 ps' mixed0 ?st] =>
          destruct (merge crossfade 0 ps' mixed0 st) as [s3 [e|mixed]] eqn:Hmerge
      end; apply merge_prefix in Hmerge as (decoded & Hc3 & Hpre & Hall);
        simpl in Hc3; rewrite Hc in Hc3;
        pose proof (prefix_length _ _ Hpre) as Hdl.
      { simplify_eq/=. exists checks, (first :: decoded), [].
        split_and!;
          [|done|unfold str, char in *; simpl in *; lia| |by left|done].
        - rewrite Hc3, app_nil_r. by repeat (rewrite <- ?app_assoc; simpl).
        - right. exists (first :: ps'). split; [exact Hps|].
          by apply prefix_cons. }
      specialize (Hall mixed eq_refl). subst decoded. simpl in Hrun.
      fold (final_path self) in Hrun.
      destruct (export mixed (final_path self) final_args (world s3))
        as [w4 [e|[]]]; simplify_eq/=;
        exists checks, (first :: ps'),
          [Call_export mixed (final_path self) final_args];
        (split_and!;
           [ rewrite Hc3; by repeat (rewrite <- ?app_assoc; simpl)
           | done
           | unfold str, char in *; simpl in *; lia
           | right; exists (first :: ps'); split; [exact Hps|];
             exists []; by rewrite app_nil_r
           | right; exists mixed; split; [done | exact Hps]
           | done ]). }
  destruct (PodcastMixer.try_body self files crossfade s) as [s1 [e|v]] eqn:Hrun;
    destruct (Hbody _ _ eq_refl)
      as (checks & decoded & exports & Hc & Hq & Hl & Hd & He & Hv).
  - eexists _, [], checks, decoded, exports.
    split_and!; [reflexivity|exact Hc|done..].
  - eexists s1, v, checks, decoded, exports.
    split_and!; [reflexivity|exact Hc|done|done|done|done|]. by apply Hv.
Qed.

(** X13: a single input is exported as it is.  With one input file the
    merge loop does not run: no silence is added, no crossfade is made,
    and the [crossfade] argument has no influence on the run at all. *)
Theorem mixer_single_input_ignores_crossfade self (f : str) (cf1 cf2 : Z) s :
  PodcastMixer._run self [f] cf1 s = PodcastMixer._run self [f] cf2 s.
Proof.
  rewrite !run_nonempty.
  assert (PodcastMixer.try_body self [f] cf1 s
          = PodcastMixer.try_body self [f] cf2 s) as ->; [|done].
  unfold PodcastMixer.try_body. remember [f] as files eqn:Hfiles.
  unfold bind, makedirs, effect, print. simpl.
  destruct (os_makedirs (output_dir self) (world s)) as [w1 [e|[]]]; [done|].
  match goal with
  | |- context [validate files [] ?st] =>
      destruct (validate files [] st) as [s2 [e|[v|validated]]] eqn:Hval
  end; [done|done|].
  apply validate_fallthrough in Hval as (ps & -> & Hps). subst files.
  apply Forall2_cons_inv_l in Hps as (p & ps' & _ & Hps & ->).
  apply Forall2_nil_inv_l in Hps as ->. reflexivity.
Qed.

Lemma validate_tracebacks (files validated : list str) s s' r :
  validate files validated s = (s', r) → tracebacks s' = tracebacks s.
Proof.
  revert validated s. induction files as [|af rest IH]; intros validated s Hrun.
  - simpl in Hrun. unfold_run. by simplify_eq/=.
  - simpl in Hrun. unfold bind at 1 in Hrun. rewrite resolve_eq in Hrun.
    destruct (resolved_path (world s) af) as [e|segment_path];
      [by simplify_eq/=|].
    unfold bind at 1, path_exists, query, log in Hrun. simpl in Hrun.
    destruct (os_path_exists segment_path (world s)); simpl in Hrun.
    + by apply IH in Hrun.
    + unfold_run. by simplify_eq/=.
Qed.

(** X15: a rejected crossfade aborts the mix.  When the first two inputs
    decode and appending the second (with its silence) to the first
    raises, as [append] does for a crossfade longer than a segment, the
    run returns the empty string, records the exception, and stops: the
    remaining inputs are not decoded and nothing is exported. *)
Theorem mixer_rejected_crossfade self (af0 af1 p0 p1 : str)
    (rest ps : list str) crossfade s (w1 w2 w3 : W) (a0 a1 : Audio) (e : exn) :
  os_makedirs (output_dir self) (world s) = (w1, inr tt) →
  Forall2 (present w1) (af0 :: af1 :: rest) (p0 :: p1 :: ps) →
  from_file p0 w1 = (w2, inr a0) →
  from_file p1 w2 = (w3, inr a1) →
  seg_append a0 (seg_add (silent 200) a1) crossfade = inl e →
  ∃ s' checks,
    PodcastMixer._run self (af0 :: af1 :: rest) crossfade s = (s', inr [])
    ∧ world s' = w3
    ∧ Forall (λ c, is_query c = true) checks
    ∧ calls s'
      = calls s ++ Call_makedirs (output_dir self) :: checks
        ++ [Call_from_file p0; Call_from_file p1]
    ∧ tracebacks s' = tracebacks s ++ [e].
Proof.
  intros Hmk Hpresent Hd0 Hd1 Happ.
  rewrite run_nonempty. unfold PodcastMixer.try_body.
  remember (af0 :: af1 :: rest) as files eqn:Hfiles.
  unfold bind at 1, makedirs, effect. simpl. rewrite Hmk.
  unfold bind at 1, print. simpl. unfold bind at 1.
  match goal with
  | |- context [validate files [] ?st] =>
      destruct (validate_present files (p0 :: p1 :: ps) [] st) as [s2 Hval];
      [exact Hpresent|]; rewrite Hval;
      pose proof (validate_tracebacks _ _ _ _ _ Hval) as Htb;
      apply validate_effects in Hval as [Hw (checks & Hc & Hchecks)]
  end.
  simpl in Hw, Hc, Htb. rewrite <- app_assoc in Hc. simpl in Hc.
  simpl. unfold bind at 1, ret.
  unfold bind at 1, AudioSegment_from_file, effect. simpl. rewrite Hw, Hd0.
  unfold bind at 1, print. simpl. unfold bind at 1.
  unfold bind at 1, AudioSegment_from_file, effect. simpl. rewrite Hd1.
  unfold bind at 1, lift_exn. rewrite Happ. simpl.
  eexists _, checks. split_and!; [reflexivity | done | done | |].
  - simpl. rewrite Hc. by repeat (rewrite <- ?app_assoc; simpl).
  - simpl. by rewrite Htb.
Qed.

End MixerMore.

(** ** The properties on the simulated platform *)

Transparent lit.

Lemma generator_paths_in_script_order_witness :
  length Sim.scenario ≤ 1000
  ∧ snd (PodcastAudioGenerator._run Sim.generator Sim.scenario
           (Sim.start Sim.scenario_world))
    = inr [lit "out/000_A.mp3"; lit "out/002_A.mp3"]
  ∧ in_script_order Sim.generator Sim.scenario
      [lit "out/000_A.mp3"; lit "out/002_A.mp3"].
Proof.
  split; [simpl; lia|].
  destruct (@generator_paths_in_script_order Sim.platform Sim.generator
              Sim.scenario (Sim.start Sim.scenario_world)
              (fst (@os_makedirs Sim.platform (lit "out") Sim.scenario_world))
              (script_effect Sim.generator 0 Sim.scenario
                 (fst (@os_makedirs Sim.platform (lit "out") Sim.scenario_world))).1.1
              (script_effect Sim.generator 0 Sim.scenario
                 (fst (@os_makedirs Sim.platform (lit "out") Sim.scenario_world))).1.2
              [(0, lit "out/000_A.mp3"); (2, lit "out/002_A.mp3")])
    as (s' & Hrun & _ & _ & _ & Horder).
  - simpl. lia.
  - repeat constructor.
  - vm_compute. reflexivity.
  - vm_compute. reflexivity.
  - rewrite Hrun. split; [reflexivity | exact Horder].
Defined.

Lemma mixer_track_witness :
  ∃ s' checks,
    PodcastMixer._run PodcastMixer.default
      [lit "out/000_A.mp3"; lit "out/002_A.mp3"] 2 (Sim.start Sim.mix_world)
    = (s', inr (lit "output/podcast/podcast_final.mp3"))
    ∧ calls s'
      = Call_makedirs (lit "output/podcast") :: checks
        ++ [Call_from_file (lit "/work/out/000_A.mp3");
            Call_from_file (lit "/work/out/002_A.mp3");
            Call_export Sim.scenario_track
              (lit "output/podcast/podcast_final.mp3") PodcastMixer.final_args].
Proof.
  destruct (@mixer_track Sim.platform PodcastMixer.default
              [lit "out/000_A.mp3"; lit "out/002_A.mp3"]
              [lit "/work/out/000_A.mp3"; lit "/work/out/002_A.mp3"]
              2%Z (Sim.start Sim.mix_world)
              (fst (Sim.sim_makedirs (lit "output/podcast") Sim.mix_world))
              (fst (Sim.sim_makedirs (lit "output/podcast") Sim.mix_world))
              [16; 32; 48]%Z Sim.scenario_track [[64; 80; 96]%Z])
    as [_ (s' & checks & Hrun & _ & _ & Hc)].
  - vm_compute. reflexivity.
  - repeat constructor; vm_compute; reflexivity.
  - vm_compute. reflexivity.
  - vm_compute. reflexivity.
  - exists s', checks. split; [exact Hrun | exact Hc].
Defined.

Lemma mixer_missing_file_aborts_witness :
  snd (PodcastMixer._run PodcastMixer.default
         [lit "out/000_A.mp3"; lit "missing.mp3"] 50 (Sim.start Sim.mix_world))
  = inr [].
Proof.
  destruct (@mixer_missing_file_aborts Sim.platform PodcastMixer.default
              [lit "out/000_A.mp3"; lit "missing.mp3"] 50%Z
              (Sim.start Sim.mix_world)
              (fst (Sim.sim_makedirs (lit "output/podcast") Sim.mix_world))
              (inr tt) (lit "missing.mp3"))
    as (s' & new & Hrun & _).
  - vm_compute. reflexivity.
  - repeat constructor.
  - exists (lit "/work/missing.mp3"). split; vm_compute; reflexivity.
  - rewrite Hrun. reflexivity.
Defined.

Lemma mixer_result_witness :
  snd (PodcastMixer._run PodcastMixer.default
         [lit "out/000_A.mp3"; lit "out/002_A.mp3"] 2 (Sim.start Sim.mix_world))
  = inr (lit "output/podcast/podcast_final.mp3").
Proof.
  pose (w1 := fst (@os_makedirs Sim.platform (lit "output/podcast")
                     Sim.mix_world)).
  destruct (@mixer_result Sim.platform PodcastMixer.default
              [lit "out/000_A.mp3"; lit "out/002_A.mp3"] 2%Z
              (Sim.start Sim.mix_world))
    as (s' & out & new & Hrun & _ & _ & _ & _ & _ & Hexported).
  destruct (Hexported [lit "/work/out/000_A.mp3"; lit "/work/out/002_A.mp3"]
              w1 w1
              (fst (@export Sim.platform Sim.scenario_track
                      (final_path PodcastMixer.default)
                      PodcastMixer.final_args w1))
              [16; 32; 48]%Z Sim.scenario_track [[64; 80; 96]%Z])
    as (Hout & _).
  - vm_compute. reflexivity.
  - repeat constructor; vm_compute; reflexivity.
  - vm_compute. reflexivity.
  - vm_compute. reflexivity.
  - vm_compute. reflexivity.
  - rewrite Hrun, Hout. vm_compute. reflexivity.
Defined.

(** C5 as stated fails: with the default [output_dir] a successful mix
    returns [output/podcast/podcast_final.mp3], which is not an absolute
    path. *)
Lemma mixer_result_counterexample :
  snd (PodcastMixer._run PodcastMixer.default [lit "out/000_A.mp3"]
         PodcastMixer.crossfade_default (Sim.start Sim.mix_world))
  = inr (lit "output/podcast/podcast_final.mp3")
  ∧ isabs (lit "output/podcast/podcast_final.mp3") = false.
Proof. split; vm_compute; reflexivity. Qed.

Lemma mixer_never_raises_witness :
  snd (PodcastMixer._run PodcastMixer.default [lit "out/000_A.mp3"] 50
         (Sim.start Sim.corrupt_world))
  = inr [].
Proof.
  destruct (@mixer_never_raises Sim.platform PodcastMixer.default
              [lit "out/000_A.mp3"] 50%Z (Sim.start Sim.corrupt_world))
    as [_ Hcaught].
  apply (Hcaught (fst (PodcastMixer.try_body PodcastMixer.default
                         [lit "out/000_A.mp3"] 50%Z (Sim.start Sim.corrupt_world)))
                 (Exn (lit "CouldntDecodeError") (lit "/work/out/000_A.mp3"))).
  - discriminate.
  - vm_compute. reflexivity.
Defined.

Lemma generator_line_failure_is_skipped_witness :
  ∃ s', PodcastAudioGenerator._run Sim.generator Sim.scenario
          (Sim.start Sim.scenario_world)
        = (s', inr [lit "out/000_A.mp3"; lit "out/002_A.mp3"]).
Proof.
  pose (w1 := fst (@os_makedirs Sim.platform (lit "out") Sim.scenario_world)).
  pose (before := script_effect Sim.generator 0 [Sim.line "A" "Hi"] w1).
  pose (vb := {| voice_id := lit "voice-b"; config := VoiceConfig_default |}).
  pose (failed := fst (PodcastAudioGenerator.try_body Sim.generator 1 (lit "B")
                         (lit "Hello") vb [] (Sim.start before.1.1))).
  pose (after := script_effect Sim.generator 2 [Sim.line "A" "Bye"]
                   (world failed)).
  destruct (@generator_line_failure_is_skipped Sim.platform Sim.generator
              Sim.scenario (Sim.start Sim.scenario_world))
    as (_ & _ & _ & _ & Hgoes_on).
  destruct (Hgoes_on [Sim.line "A" "Hi"] [Sim.line "A" "Bye"]
              (Some (lit "B")) (Some (lit "Hello")) vb w1 after.1.1
              before.1.2 after.1.2 [(0, lit "out/000_A.mp3")]
              [(2, lit "out/002_A.mp3")] [] (Sim.start before.1.1) failed
              (Exn (lit "ApiError") (lit "status_code: 500")))
    as (s' & c2 & Hrun & _).
  - reflexivity.
  - repeat constructor.
  - repeat constructor.
  - vm_compute. reflexivity.
  - vm_compute. reflexivity.
  - vm_compute. discriminate.
  - vm_compute. discriminate.
  - vm_compute. reflexivity.
  - vm_compute. reflexivity.
  - vm_compute. reflexivity.
  - exists s'. rewrite Hrun. f_equal.
Defined.

Lemma generator_skips_line_witness :
  ∃ s', PodcastAudioGenerator._run Sim.generator
          [Sim.line "C" "Hi"; Sim.line "A" "Hi"] (Sim.start Sim.scenario_world)
        = (s', inr [lit "out/001_A.mp3"])
    ∧ Forall (λ p, ordinal_prefix (lit "out") p ≠ Some 0)
        [lit "out/001_A.mp3"].
Proof.
  destruct (@generator_skips_line Sim.platform Sim.generator 0
              (Sim.line "C" "Hi") [] (Sim.start Sim.scenario_world))
    as (_ & _ & Hrun).
  - right. right. vm_compute. reflexivity.
  - destruct (Hrun [] [Sim.line "A" "Hi"] (Sim.start Sim.scenario_world)
                (fst (@os_makedirs Sim.platform (lit "out") Sim.scenario_world))
                (fst (@os_makedirs Sim.platform (lit "out") Sim.scenario_world))
                (script_effect Sim.generator 1 [Sim.line "A" "Hi"]
                   (fst (@os_makedirs Sim.platform (lit "out") Sim.scenario_world))).1.1
                []
                (script_effect Sim.generator 1 [Sim.line "A" "Hi"]
                   (fst (@os_makedirs Sim.platform (lit "out") Sim.scenario_world))).1.2
                [] [(1, lit "out/001_A.mp3")])
      as (s' & Hs' & _ & _ & Hord).
    + constructor.
    + repeat constructor.
    + vm_compute. reflexivity.
    + vm_compute. reflexivity.
    + vm_compute. reflexivity.
    + exists s'. split; [exact Hs' | exact Hord].
Defined.

Lemma generator_normalize_pass_witness :
  ∃ s' boosted,
    PodcastAudioGenerator._run Sim.generator [Sim.line "A" "Hi"]
      (Sim.start Sim.scenario_world)
    = (s', inr [lit "out/000_A.mp3"])
    ∧ calls s'
      = [Call_makedirs (lit "out");
         Call_convert (PodcastAudioGenerator.request_of (lit "Hi") Sim.voice_a);
         Call_write (lit "out/000_A.mp3") (Sim.encode (lit "voice-aHi"));
         Call_from_file (lit "out/000_A.mp3");
         Call_export boosted (lit "out/000_A.mp3")
           {| export_format := lit "mp3";
              export_bitrate := Some (lit "256k");
              export_parameters := [lit "-ar"; lit "48000"] |}].
Proof.
  pose (w0 := fst (@os_makedirs Sim.platform (lit "out") Sim.scenario_world)).
  pose (w2 := Sim.store (lit "/work/out/000_A.mp3")
                (Sim.encode (lit "voice-aHi")) w0 : @W Sim.platform).
  pose (boosted := Sim.sim_gain (Sim.sim_normalize
                                   (Sim.samples (Sim.encode (lit "voice-aHi")))) 4
                   : @Audio Sim.platform).
  destruct (@generator_normalize_pass Sim.platform Sim.generator 0 (lit "A")
              (lit "Hi") Sim.voice_a [] (Sim.start w0) w0 w2
              [Sim.encode (lit "voice-a"); Sim.encode (lit "Hi")])
    as [Hon _].
  - vm_compute. reflexivity.
  - vm_compute. reflexivity.
  - destruct (Hon eq_refl w2 (Sim.samples (Sim.encode (lit "voice-aHi"))))
      as [_ Hrun].
    + vm_compute. reflexivity.
    + destruct (Hrun [] [] (Some (lit "A")) (Some (lit "Hi"))
                  (Sim.start Sim.scenario_world) w0
                  (fst (@export Sim.platform boosted (lit "out/000_A.mp3")
                          (PodcastAudioGenerator.normalize_args Sim.generator)
                          w2))
                  [] [] [] [])
        as (s' & Hs' & _ & Hc).
      * reflexivity.
      * vm_compute. reflexivity.
      * vm_compute. reflexivity.
      * vm_compute. discriminate.
      * vm_compute. discriminate.
      * vm_compute. reflexivity.
      * constructor.
      * constructor.
      * vm_compute. reflexivity.
      * vm_compute. reflexivity.
      * vm_compute. reflexivity.
      * exists s', boosted.
        split; [etransitivity; [exact Hs'|] | rewrite Hc];
          vm_compute; reflexivity.
Defined.

Lemma generator_requires_dicts_witness :
  ∃ s', PodcastAudioGenerator._run Sim.generator
          [Sim.line "A" "Hi"; DialogueSegment (lit "B") (lit "Hello")]
          (Sim.start Sim.scenario_world)
        = (s', inl PodcastAudioGenerator.attribute_error).
Proof.
  destruct (@generator_requires_dicts Sim.platform Sim.generator
              [Sim.line "A" "Hi"; DialogueSegment (lit "B") (lit "Hello")]
              (Sim.start Sim.scenario_world)
              (fst (Sim.sim_makedirs (lit "out") Sim.scenario_world)))
    as [_ Hraise].
  - vm_compute. reflexivity.
  - apply (Hraise (lit "B") (lit "Hello")). repeat constructor.
Defined.

(** C1 as stated fails: in a script of 1001 lines of which lines 100 and
    1000 are spoken, the file of line 1000 sorts before the file of line
    100, so the ordinal prefixes of the returned list decrease. *)
Lemma generator_order_counterexample :
  length Sim.long_script = 1001
  ∧ snd (PodcastAudioGenerator._run Sim.generator Sim.long_script
           (Sim.start Sim.empty_world))
    = inr [lit "out/1000_A.mp3"; lit "out/100_A.mp3"]
  ∧ ¬ in_script_order Sim.generator Sim.long_script
        [lit "out/1000_A.mp3"; lit "out/100_A.mp3"].
Proof.
  split_and!.
  - vm_compute. reflexivity.
  - vm_compute. reflexivity.
  - intros [_ (idxs & Hsort & Hall)].
    apply Forall2_cons_inv_r in Hall as (i & idxs' & Hi & Hall & ->).
    apply Forall2_cons_inv_r in Hall as (j & idxs'' & Hj & Hall & ->).
    destruct Hi as (_ & _ & _ & _ & Hi), Hj as (_ & _ & _ & _ & Hj).
    assert (ordinal_prefix (lit "out") (lit "out/1000_A.mp3") = Some 1000)
      as Hi' by (vm_compute; reflexivity).
    assert (ordinal_prefix (lit "out") (lit "out/100_A.mp3") = Some 100)
      as Hj' by (vm_compute; reflexivity).
    change (PodcastAudioGenerator.output_dir Sim.generator) with (lit "out") in *.
    rewrite Hi' in Hi. rewrite Hj' in Hj. simplify_eq.
    apply StronglySorted_inv in Hsort as [_ Hlt].
    apply Forall_cons in Hlt as [Hlt _]. lia.
Qed.

Lemma add_voice_lookup_witness :
  PodcastAudioGenerator.voice_configs Sim.generator !! lit "A" = Some Sim.voice_a.
Proof.
  unfold Sim.generator.
  destruct (add_voice_lookup
              (PodcastAudioGenerator.add_voice
                 {| PodcastAudioGenerator.voice_configs := ∅;
                    PodcastAudioGenerator.audio_config := AudioConfig_default;
                    PodcastAudioGenerator.output_dir := lit "out" |}
                 (lit "A") (lit "voice-a") None)
              (lit "B") (lit "voice-b") None) as (_ & Hother & _).
  rewrite (Hother (lit "A")); [|vm_compute; discriminate].
  destruct (add_voice_lookup
              {| PodcastAudioGenerator.voice_configs := ∅;
                 PodcastAudioGenerator.audio_config := AudioConfig_default;
                 PodcastAudioGenerator.output_dir := lit "out" |}
              (lit "A") (lit "voice-a") None) as [Hthis _].
  exact Hthis.
Defined.

Lemma generator_uses_registered_voice_witness :
  ∃ s' l new,
    PodcastAudioGenerator.loop_body
      (PodcastAudioGenerator.add_voice PodcastAudioGenerator.default
         (lit "Host") (lit "voice-h") None)
      0 (Sim.line " Host " "Welcome. ") [] (Sim.start Sim.empty_world)
    = (s', inr l)
    ∧ calls s'
      = Call_convert {| tts_text := lit "Welcome.";
                        tts_voice_id := lit "voice-h";
                        tts_model_id := lit "eleven_multilingual_v2";
                        tts_output_format := lit "mp3_44100_128";
                        tts_stability := 0.45;
                        tts_similarity_boost := 0.85;
                        tts_style := 0.65;
                        tts_use_speaker_boost := true |} :: new
    ∧ List.filter is_convert new = [].
Proof.
  apply (@generator_uses_registered_voice Sim.platform
           PodcastAudioGenerator.default (lit "Host") (lit "voice-h") None 0
           (Some (lit " Host ")) (Some (lit "Welcome. ")) []
           (Sim.start Sim.empty_world)).
  - vm_compute. reflexivity.
  - vm_compute. discriminate.
  - vm_compute. discriminate.
Defined.

Lemma filename_of_inj_witness :
  (7 = 7 ∧ lit "A" = lit "A").
Proof.
  apply (filename_of_inj Sim.generator 7 7 (lit "A") (lit "A")).
  reflexivity.
Defined.

Lemma generator_paths_distinct_witness :
  NoDup [lit "out/000_A.mp3"; lit "out/002_A.mp3"].
Proof.
  apply (@generator_paths_distinct Sim.platform Sim.generator Sim.scenario
           (Sim.start Sim.scenario_world)
           (fst (PodcastAudioGenerator._run Sim.generator Sim.scenario
                   (Sim.start Sim.scenario_world)))).
  vm_compute. reflexivity.
Defined.

Lemma generator_nothing_to_do_witness :
  ∃ s', PodcastAudioGenerator._run Sim.generator
          [Sim.blank; Sim.line "C" "Hi"; Sim.line "A" "   "]
          (Sim.start Sim.empty_world) = (s', inr [])
    ∧ calls s' = [Call_makedirs (lit "out")].
Proof.
  destruct (@generator_nothing_to_do Sim.platform Sim.generator
              [Sim.blank; Sim.line "C" "Hi"; Sim.line "A" "   "]
              (Sim.start Sim.empty_world)
              (fst (Sim.sim_makedirs (lit "out") Sim.empty_world)))
    as (s' & Hrun & _ & Hc).
  - vm_compute. reflexivity.
  - apply Forall_cons. split; [left; vm_compute; reflexivity|].
    apply Forall_cons. split; [right; right; vm_compute; reflexivity|].
    apply Forall_cons. split; [right; left; vm_compute; reflexivity|].
    apply Forall_nil_2.
  - exists s'. split; [exact Hrun | exact Hc].
Defined.

Lemma makedirs_failure_witness :
  snd (PodcastAudioGenerator._run Sim.generator Sim.scenario
         (Sim.start Sim.blocked_world))
  = inl (Exn (lit "FileExistsError") (lit "/work/out"))
  ∧ snd (PodcastMixer._run PodcastMixer.default [lit "out/000_A.mp3"] 50
           (Sim.start Sim.blocked_world))
    = inr [].
Proof.
  split.
  - destruct (@makedirs_failure Sim.platform Sim.generator PodcastMixer.default
                Sim.scenario (lit "out/000_A.mp3") [] 50%Z
                (Sim.start Sim.blocked_world) Sim.blocked_world
                (Exn (lit "FileExistsError") (lit "/work/out"))) as [Hgen _].
    rewrite Hgen; [reflexivity | vm_compute; reflexivity].
  - destruct (@makedirs_failure Sim.platform Sim.generator PodcastMixer.default
                Sim.scenario (lit "out/000_A.mp3") [] 50%Z
                (Sim.start Sim.blocked_world) Sim.blocked_world
                (Exn (lit "FileExistsError") (lit "/work/output/podcast")))
      as [_ Hmix].
    destruct Hmix as (s' & Hrun & _); [vm_compute; reflexivity|].
    rewrite Hrun. reflexivity.
Defined.

Lemma generator_normalize_failure_witness :
  (∃ s', @PodcastAudioGenerator.loop_body (Sim.faulty true false true)
           Sim.generator 0 (Sim.line "A" "Hi") []
           (@Sim.fresh (Sim.faulty true false true) Sim.scenario_world)
         = (s', inr []))
  ∧ (∃ s', @PodcastAudioGenerator.loop_body (Sim.faulty true true false)
             Sim.generator 0 (Sim.line "A" "Hi") []
             (@Sim.fresh (Sim.faulty true true false) Sim.scenario_world)
           = (s', inr [])).
Proof.
  split.
  - destruct (@generator_normalize_failure (Sim.faulty true false true)
                Sim.generator 0 (Some (lit "A")) (Some (lit "Hi")) Sim.voice_a []
                (@Sim.fresh (Sim.faulty true false true) Sim.scenario_world)
                Sim.scenario_world
                (Sim.store (lit "/work/out/000_A.mp3")
                   (Sim.encode (lit "voice-aHi")) Sim.scenario_world)
                [Sim.encode (lit "voice-a"); Sim.encode (lit "Hi")])
      as [Hdecode _].
    + vm_compute. discriminate.
    + vm_compute. discriminate.
    + vm_compute. reflexivity.
    + reflexivity.
    + vm_compute. reflexivity.
    + vm_compute. reflexivity.
    + destruct (Hdecode
                  (Sim.store (lit "/work/out/000_A.mp3")
                     (Sim.encode (lit "voice-aHi")) Sim.scenario_world)
                  (Exn (lit "CouldntDecodeError") (lit "out/000_A.mp3")))
        as (s' & Hrun & _); [vm_compute; reflexivity|].
      exists s'. exact Hrun.
  - destruct (@generator_normalize_failure (Sim.faulty true true false)
                Sim.generator 0 (Some (lit "A")) (Some (lit "Hi")) Sim.voice_a []
                (@Sim.fresh (Sim.faulty true true false) Sim.scenario_world)
                Sim.scenario_world
                (Sim.store (lit "/work/out/000_A.mp3")
                   (Sim.encode (lit "voice-aHi")) Sim.scenario_world)
                [Sim.encode (lit "voice-a"); Sim.encode (lit "Hi")])
      as [_ Hexport].
    + vm_compute. discriminate.
    + vm_compute. discriminate.
    + vm_compute. reflexivity.
    + reflexivity.
    + vm_compute. reflexivity.
    + vm_compute. reflexivity.
    + destruct (Hexport
                  (Sim.store (lit "/work/out/000_A.mp3")
                     (Sim.encode (lit "voice-aHi")) Sim.scenario_world)
                  (Sim.store (lit "/work/out/000_A.mp3")
                     (Sim.encode (lit "voice-aHi")) Sim.scenario_world)
                  (Sim.samples (Sim.encode (lit "voice-aHi")))
                  (Exn (lit "OSError") (lit "No space left on device")))
        as (s' & Hrun & _); [vm_compute; reflexivity..|].
      exists s'. exact Hrun.
Defined.

Lemma generator_ignores_padding_witness :
  PodcastAudioGenerator.loop_body Sim.generator 0
    (DictSegment (Some (lit " " ++ lit "A" ++ [9%N]))
                 (Some ([10%N] ++ lit "Hi" ++ lit "  ")))
    [] (Sim.start Sim.scenario_world)
  = PodcastAudioGenerator.loop_body Sim.generator 0 (Sim.line "A" "Hi") []
      (Sim.start Sim.scenario_world).
Proof.
  apply (@generator_ignores_padding Sim.platform Sim.generator 0
           (lit "A") (lit "Hi") (lit " ") [9%N] [10%N] (lit "  ") []
           (Sim.start Sim.scenario_world)).
  repeat (apply Forall_cons; split; [vm_compute; reflexivity|]).
  apply Forall_nil_2.
Defined.

Lemma generator_one_request_per_line_witness :
  ∃ new,
    calls (fst (PodcastAudioGenerator._run Sim.generator Sim.scenario
                  (Sim.start Sim.scenario_world)))
    = calls (Sim.start Sim.scenario_world)
      ++ Call_makedirs (PodcastAudioGenerator.output_dir Sim.generator) :: new
    ∧ length (List.filter is_convert new) ≤ length Sim.scenario
    ∧ Forall (λ c, is_makedirs c = false ∧ is_query c = false) new.
Proof.
  apply (@generator_one_request_per_line Sim.platform Sim.generator Sim.scenario
           (Sim.start Sim.scenario_world) _
           (snd (PodcastAudioGenerator._run Sim.generator Sim.scenario
                   (Sim.start Sim.scenario_world)))).
  apply surjective_pairing.
Defined.

Lemma mixer_rejected_crossfade_witness :
  snd (PodcastMixer._run PodcastMixer.default
         [lit "out/000_A.mp3"; lit "out/002_A.mp3"] 50 (Sim.start Sim.mix_world))
  = inr [].
Proof.
  destruct (@mixer_rejected_crossfade Sim.platform PodcastMixer.default
              (lit "out/000_A.mp3") (lit "out/002_A.mp3")
              (lit "/work/out/000_A.mp3") (lit "/work/out/002_A.mp3") [] []
              50%Z (Sim.start Sim.mix_world)
              (fst (Sim.sim_makedirs (lit "output/podcast") Sim.mix_world))
              (fst (Sim.sim_makedirs (lit "output/podcast") Sim.mix_world))
              (fst (Sim.sim_makedirs (lit "output/podcast") Sim.mix_world))
              [16; 32; 48]%Z [64; 80; 96]%Z
              (Exn (lit "ValueError")
                 (lit "Crossfade is longer than the original AudioSegment")))
    as (s' & checks & Hrun & _).
  - vm_compute. reflexivity.
  - repeat constructor; vm_compute; reflexivity.
  - vm_compute. reflexivity.
  - vm_compute. reflexivity.
  - vm_compute. reflexivity.
  - rewrite Hrun. reflexivity.
Defined.

Lemma mixer_stops_at_first_missing_witness :
  ∃ s',
    PodcastMixer._run PodcastMixer.default
      [lit "out/000_A.mp3"; lit "missing.mp3"; lit "out/002_A.mp3"] 50
      (Sim.start Sim.mix_world) = (s', inr [])
    ∧ calls s'
      = [Call_makedirs (lit "output/podcast");
         Call_getcwd; Call_exists (lit "/work/out/000_A.mp3");
         Call_getcwd; Call_exists (lit "/work/missing.mp3")].
Proof.
  destruct (@mixer_stops_at_first_missing Sim.platform PodcastMixer.default
              [lit "out/000_A.mp3"] [lit "/work/out/000_A.mp3"]
              [lit "out/002_A.mp3"] (lit "missing.mp3") (lit "/work/missing.mp3")
              50%Z (Sim.start Sim.mix_world)
              (fst (Sim.sim_makedirs (lit "output/podcast") Sim.mix_world)))
    as (s' & Hrun & Hc & _).
  - vm_compute. reflexivity.
  - repeat constructor; vm_compute; reflexivity.
  - vm_compute. reflexivity.
  - vm_compute. reflexivity.
  - exists s'. split; [exact Hrun|]. rewrite Hc. vm_compute. reflexivity.
Defined.

Lemma mixer_getcwd_failure_witness :
  snd (@PodcastMixer._run (Sim.faulty false true true) PodcastMixer.default
         [lit "out/000_A.mp3"] 50
         (@Sim.fresh (Sim.faulty false true true) Sim.mix_world))
  = inr [].
Proof.
  destruct (@mixer_getcwd_failure (Sim.faulty false true true)
              PodcastMixer.default (lit "out/000_A.mp3") [] 50%Z
              (@Sim.fresh (Sim.faulty false true true) Sim.mix_world)
              (fst (Sim.sim_makedirs (lit "output/podcast") Sim.mix_world))
              (Exn (lit "FileNotFoundError") (lit "No such file or directory")))
    as (s' & Hrun & _).
  - vm_compute. reflexivity.
  - vm_compute. reflexivity.
  - vm_compute. reflexivity.
  - rewrite Hrun. reflexivity.
Defined.

Lemma generator_prefix_stable_witness :
  lit "out/000_A.mp3" ∈ [lit "out/000_A.mp3"; lit "out/002_A.mp3"].
Proof.
  destruct (@generator_prefix_stable Sim.platform Sim.generator
              [Sim.line "A" "Hi"] [Sim.line "B" "Hello"; Sim.line "A" "Bye"]
              (Sim.start Sim.scenario_world)
              (fst (PodcastAudioGenerator._run Sim.generator [Sim.line "A" "Hi"]
                      (Sim.start Sim.scenario_world)))
              (fst (PodcastAudioGenerator._run Sim.generator Sim.scenario
                      (Sim.start Sim.scenario_world)))
              [lit "out/000_A.mp3"]
              [lit "out/000_A.mp3"; lit "out/002_A.mp3"]) as [Hsub _].
  - vm_compute. reflexivity.
  - vm_compute. reflexivity.
  - apply Hsub. apply list_elem_of_here.
Defined.
